(** * Langulus [literal_t]: a fixed-capacity literal value type

    Shallow embedding of [include/Langulus/Literal.hpp] and the properties
    its specification states about capacity bucketing, the storage
    invariants, cross-category equality, substring extraction, truncating
    append and concatenation.

    Conventions of the embedding:
    - [std::array<T, N + 1>] is a [list T]; [well_formed] says it has its
      [N + 1] slots.  Slots are read with stdpp's lookup [!!] and written
      with [<[i:=c]>].
    - template parameters ([T], [N], [M]) are ordinary arguments; a
      [requires] clause is a hypothesis of the theorems that use the
      function.
    - [size_t] values that index storage are [nat]; the ones that may be
      [npos] (positions and counts handed to [substr] and the searches) are
      binary naturals [N].
    - a call that can throw returns an [outcome].
    - values do not alias: a call whose operand is the receiver itself
      ([s += s]), and a call that overload resolution sends to another
      function than the one its spelling suggests ([s = array] for an
      extent other than [N], [a.find(b)] for a literal [b]), each have a
      definition of their own. *)

From Stdlib Require Import Ascii String.
From stdpp Require Import base numbers list strings.

Open Scope nat_scope.

(** ** Outcomes of calls *)

(** [std::range_error], the one exception the header throws. *)
Inductive exception : Type :=
  | range_error (what : string).

(** [Stuck] stands for a call without defined behaviour: an access outside
    the [N + 1] slots of the array, or an instantiation that is ill-formed. *)
Inductive outcome (A : Type) : Type :=
  | Return (a : A)
  | Throw (e : exception)
  | Stuck.
Arguments Return {A} a.
Arguments Throw {A} e.
Arguments Stuck {A}.

#[export] Instance outcome_ret : MRet outcome := @Return.

#[export] Instance outcome_bind : MBind outcome := λ A B k x,
  match x with
  | Return a => k a
  | Throw e => Throw e
  | Stuck => Stuck
  end.

(** ** Element types *)

(** What the container needs to know about its element type [T]. *)
Class Element (T : Type) : Type := {
  (** the value-initialised element [T{}], also what the literal [0]
      converts to *)
  zero : T;
  (** contextual conversion to [bool], as in [*ptr] and [not _data[0]] *)
  to_bool : T → bool;
  (** [CT::LiteralChar<T>] *)
  LiteralChar : bool;
  (** [std::same_as<T, Unsupported>] *)
  Undefined : bool;
}.
Arguments zero : simpl never.

(** [struct Unsupported {};] *)
Inductive Unsupported : Type := Unsupported_value.

#[export] Instance Unsupported_element : Element Unsupported := {
  zero := Unsupported_value;
  to_bool := λ _, false;
  LiteralChar := false;
  Undefined := true;
}.

(** [char], as 8-bit code units. *)
Definition char : Type := ascii.

#[export] Instance char_element : Element char := {
  zero := Ascii.zero;
  to_bool := λ c, negb (Ascii.eqb c Ascii.zero);
  LiteralChar := true;
  Undefined := false;
}.

(** [int], used for literal values. *)
#[export] Instance int_element : Element Z := {
  zero := 0%Z;
  to_bool := λ z, negb (z =? 0)%Z;
  LiteralChar := false;
  Undefined := false;
}.

(** A character-kind element type: one of the five code-unit types, for
    which conversion to [bool] is the test against the null character. *)
Definition character_type (T : Type) `{Element T} : Prop :=
  LiteralChar = true ∧ Undefined = false ∧
  ∀ c : T, to_bool c = false ↔ c = zero.

(** ** Capacity model *)

(** [std::bit_ceil] on [size_t], the way the standard library computes it:
    1 for arguments up to 1, otherwise 1 shifted by the bit width of
    [x - 1].  (Its precondition, that the result is representable, holds
    for every array extent.) *)
Definition bit_ceil (x : nat) : nat :=
  if x <=? 1 then 1 else 2 ^ S (Nat.log2 (x - 1)).

(** [std::has_single_bit] *)
Definition has_single_bit (x : nat) : bool :=
  (0 <? x) && (2 ^ Nat.log2 x =? x).

(** Capacity of [Resized<M>] and of the array deduction guide:
    [literal_t<value_type, std::bit_ceil(M)>]. *)
Definition Resized (M : nat) : nat := bit_ceil M.

(** The class's [static_assert(N == 0 or std::has_single_bit(N))]. *)
Definition valid_capacity (N : nat) : bool := (N =? 0) || has_single_bit N.

(** [size_t] values that may be [npos]. *)
Definition size_t : Type := BinNums.N.
Bind Scope N_scope with size_t.

(** [std::basic_string_view::npos], [size_t(-1)]. *)
Definition npos : size_t := (2 ^ 64 - 1)%N.

(** ** The container *)

(** [template<class T, size_t N> struct literal_t], with its single data
    member [storage_type _data {}] of [N + 1] slots. *)
Record literal_t (T : Type) (N : nat) : Type := mk_literal { _data : list T }.
Arguments mk_literal {T N} _data.
Arguments _data {T N} _.

Definition well_formed {T : Type} {N : nat} (self : literal_t T N) : Prop :=
  length (_data self) = S N.

(** [CT::LiteralString], [CT::LiteralValue], [CT::LiteralUndefined] for one
    operand [literal_t<T, N>]. *)
Definition LiteralString (T : Type) `{Element T} (N : nat) : bool :=
  (0 <? N) && LiteralChar.
Definition LiteralValue (T : Type) `{Element T} (N : nat) : bool :=
  (N =? 0) && negb Undefined.
Definition LiteralUndefined (T : Type) `{Element T} (N : nat) : bool :=
  Undefined.

(** [for (size_t i = 0; i < M; i++) dst[i] = src[i];] over a source array
    of [M] elements. *)
Fixpoint copy_array {T : Type} (i : nat) (src dst : list T) : list T :=
  match src with
  | [] => dst
  | c :: src' => copy_array (S i) src' (<[i := c]> dst)
  end.

(** [for (size_t i = 0; i < count; ++i) dst[i] = src[pos + i];]
    A read outside [src] does not happen under the callers' bounds; the
    slot is then left as it is. *)
Definition copy_range {T : Type} (pos count : nat) (src dst : list T) : list T :=
  foldl (λ d i, match src !! (pos + i) with
                | Some c => <[i := c]> d
                | None => d
                end) dst (seq 0 count).

(** The loop of [size()]:
    [while (ptr != ptrEnd and *ptr) ++ptr;] with [n] slots left before
    [ptrEnd]; the result is the number of increments. *)
Fixpoint scan {T : Type} `{Element T} (n : nat) (l : list T) : nat :=
  match n, l with
  | S k, c :: l' => if to_bool c then S (scan k l') else 0
  | _, _ => 0
  end.

(** The loop shared by both [operator +=]:
    [while (d != data() + ArraySize and s != sEnd) *(d++) = *(s++);]
    [d] and [dEnd] are offsets into the receiver, [src] the elements from
    [s] up to [sEnd]. *)
Fixpoint append_loop {T : Type} (d dEnd : nat) (src dst : list T) : list T :=
  match src with
  | [] => dst
  | c :: src' =>
      if decide (d = dEnd) then dst
      else append_loop (S d) dEnd src' (<[d := c]> dst)
  end.

Section Literal.
Context {T : Type} `{Element T} {N : nat}.

(** Build-time switch [LANGULUS_OPTION_SAFE_MODE]. *)
Variable LANGULUS_OPTION_SAFE_MODE : bool.

Definition ArraySize (self : literal_t T N) : nat := N.

(** [constexpr literal_t() noexcept = default;] *)
Definition literal_default : literal_t T N :=
mk_literal (replicate (S N) zero).

(** [constexpr literal_t(const value_type& c)] *)
Definition from_value (c : T) : literal_t T N :=
mk_literal (<[0 := c]> (replicate (S N) zero)).

(** [constexpr literal_t(const value_type(&array)[M])], which requires
  [M <= N + 1]. *)
Definition from_array (array : list T) : literal_t T N :=
mk_literal (copy_array 0 array (replicate (S N) zero)).

(** [operator = (const value_type(&array)[N])] *)
Definition assign_array (self : literal_t T N) (array : list T)
: literal_t T N :=
mk_literal (copy_array 0 array (_data self)).

(** Slot [i] of the array, for the reads at an index that is within the
  [N + 1] slots by construction. *)
Definition slot (self : literal_t T N) (i : nat) : T :=
default zero (_data self !! i).

Definition size (self : literal_t T N) : nat :=
if (0 <? N) && negb Undefined then scan N (_data self) else 0.

Definition empty (self : literal_t T N) : bool :=
if (0 <? N) && negb Undefined
then (N =? 0) || negb (to_bool (slot self 0))
else true.

(** [explicit operator bool] *)
Definition operator_bool (self : literal_t T N) : bool :=
if Undefined then false else to_bool (slot self 0).

(** [operator []], as the value of the expression [self[n]]. *)
Definition subscript (self : literal_t T N) (n : nat) : outcome T :=
if 0 <? N then
  if LANGULUS_OPTION_SAFE_MODE && (size self <=? n)
  then Throw (range_error "subscript index outside literal_t limits")
  else match _data self !! n with
       | Some c => Return c
       | None => Stuck
       end
else Return (slot self 0).

(** [operator []] with the receiver as state: a read [self[n]], and a
  write [self[n] = c] through the reference it returns.  The receiver
  after the call is the second component. *)
Definition index_read (n : nat) (self : literal_t T N)
: outcome T * literal_t T N :=
(subscript self n, self).

Definition index_write (n : nat) (c : T) (self : literal_t T N)
: outcome unit * literal_t T N :=
match subscript self n with
| Return _ =>
    (Return (), mk_literal (<[(if 0 <? N then n else 0) := c]> (_data self)))
| Throw e => (Throw e, self)
| Stuck => (Stuck, self)
end.

(** [operator view_type], requires [N > 0]: [{data(), size()}], the
  populated content. *)
Definition sv (self : literal_t T N) : list T :=
take (size self) (_data self).

(** [substr(size_t pos = 0, size_t count = npos)] *)
Definition substr (self : literal_t T N) (pos count : size_t) : literal_t T N :=
let result : literal_t T N := literal_default in
let s := size self in
if (N.of_nat s <=? pos)%N then result
else
  let pos := N.to_nat pos in
  let count := if (N.of_nat (s - pos) <? count)%N then s - pos
               else N.to_nat count in
  mk_literal (<[count := zero]>
                (copy_range pos count (_data self) (_data result))).

(** [operator += (const C(&rhs)[M])] *)
Definition append_array (self : literal_t T N) (rhs : list T)
: literal_t T N :=
mk_literal (append_loop (size self) N rhs (_data self)).

End Literal.

Arguments literal_default {T _} N.
Arguments from_value {T _} N c.
Arguments from_array {T _} N array.

(** [operator += (const CT::LiteralString auto& rhs)], for a source of the
    receiver's element type that is another object than the receiver: the
    loop reads [rhs.data()] up to [rhs.data() + rhs.size() + 1] from a
    buffer that it does not write.  The call [s += s], in which the
    source is the buffer being written, is [append_self] below. *)
Definition append_literal {T : Type} `{Element T} {N M : nat}
    (self : literal_t T N) (rhs : literal_t T M) : literal_t T N :=
  mk_literal (append_loop (size self) N
                (take (size rhs + 1) (_data rhs)) (_data self)).

(** [template<size_t M> requires (M <= N) literal_t(const literal_t<char, M>&)].
    Overload resolution selects this constructor for a source of another
    capacity, [M < N]; for [M = N] and element type [char] the source has
    the type of the object under construction and the implicit copy
    constructor, which copies all [N + 1] slots as they are, is selected
    instead. *)
Definition widen {M : nat} (N : nat) (other : literal_t char M)
  : literal_t char N :=
  mk_literal (<[M := zero]>
                (copy_range 0 M (_data other) (replicate (S N) zero))).

(** [operator + (const LHS& lhs, const RHS& rhs)] on two strings:
    [Resized<LHS::ArraySize + RHS::ArraySize> result {lhs}; result += rhs;]
    Both operands are strings, [0 < N1] and [0 < N2], so that the result
    is wider than [lhs]; [result] is a new object, which [rhs] cannot
    alias. *)
Definition concat {N1 N2 : nat} (lhs : literal_t char N1)
    (rhs : literal_t char N2) : literal_t char (Resized (N1 + N2)) :=
  append_literal (widen (Resized (N1 + N2)) lhs) rhs.

(** ** Equality *)

Section Equality.
Context {T U : Type} `{Element T} `{Element U} {N M : nat}.

Variable LANGULUS_OPTION_SAFE_MODE : bool.

(** The built-in or user-provided [t == u] between the two element
  types, when the program has one. *)
Variable element_eq : option (T → U → bool).

(** [std::equality_comparable_with<typename LHS::value_type,
  typename RHS::value_type>]: [Unsupported] is an empty struct without
  comparison operators, so the concept fails as soon as one side is
  [Unsupported]. *)
Definition equality_comparable_with : option (T → U → bool) :=
if @Undefined T _ || @Undefined U _ then None else element_eq.

Abbreviation at_index := (subscript LANGULUS_OPTION_SAFE_MODE).

(** [for (size_t i = 0; i < lhs.size(); ++i)
     if (lhs[i] != rhs[i]) return false;
   return true;]
  with [count] iterations left. *)
Fixpoint equal_loop (ne : T → U → bool) (lhs : literal_t T N)
  (rhs : literal_t U M) (count i : nat) : outcome bool :=
match count with
| 0 => Return true
| S k =>
    x ← at_index lhs i; y ← at_index rhs i;
    if ne x y then Return false else equal_loop ne lhs rhs k (S i)
end.

(** [operator == (const LHS& lhs, const RHS& rhs)] for two literals *)
Definition operator_eq (lhs : literal_t T N) (rhs : literal_t U M)
: outcome bool :=
if LiteralString T N && LiteralString U M then
  (* both are strings *)
  if negb (size lhs =? size rhs) then Return false
  else match element_eq with
       | Some eq => equal_loop (λ x y, negb (eq x y)) lhs rhs (size lhs) 0
       | None => Stuck
       end
else if LiteralString T N then
  (* LHS is string, RHS is value/undefined *)
  if LiteralUndefined U M then Return (empty lhs)
  else match equality_comparable_with with
       | Some eq =>
           if empty lhs && empty rhs then Return true
           else if size lhs =? 1
                then x ← at_index lhs 0; y ← at_index rhs 0; Return (eq x y)
                else Return false
       | None => Return false
       end
else if LiteralString U M then
  (* LHS is value/undefined, RHS is string *)
  if LiteralUndefined T N then Return (empty rhs)
  else match equality_comparable_with with
       | Some eq =>
           if empty lhs && empty rhs then Return true
           else if size rhs =? 1
                then x ← at_index lhs 0; y ← at_index rhs 0; Return (eq x y)
                else Return false
       | None => Return false
       end
else match equality_comparable_with with
     | Some eq =>
         (* both are values/undefined and comparable *)
         x ← at_index lhs 0; y ← at_index rhs 0; Return (eq x y)
     | None =>
         (* both are values/undefined and uncomparable *)
         Return (LiteralUndefined T N && LiteralUndefined U M)
     end.

End Equality.

(** ** Searching *)

(** The searches of [std::basic_string_view] over the populated content,
    as the C++ standard defines them ([string.view.find]). *)
Module string_view.
Section Search.
Context {T : Type} `{EqDecision T}.

(** lowest index in [i, i + n) at which [P] holds *)
Fixpoint lowest (P : nat → bool) (i n : nat) : size_t :=
match n with
| 0 => npos
| S k => if P i then N.of_nat i else lowest P (S i) k
end.

(** highest index below [n] at which [P] holds *)
Fixpoint highest (P : nat → bool) (n : nat) : size_t :=
match n with
| 0 => npos
| S k => if P k then N.of_nat k else highest P k
end.

Definition matches_at (s v : list T) (i : nat) : bool :=
bool_decide (take (length v) (drop i s) = v).

Definition one_of (s v : list T) (i : nat) : bool :=
match s !! i with
| Some c => bool_decide (c ∈ v)
| None => false
end.

Definition none_of (s v : list T) (i : nat) : bool :=
match s !! i with
| Some c => bool_decide (c ∉ v)
| None => false
end.

Definition find (s v : list T) (pos : size_t) : size_t :=
if (N.of_nat (length s) <? pos)%N then npos
else lowest (matches_at s v) (N.to_nat pos)
       (S (length s) - length v - N.to_nat pos).

Definition rfind (s v : list T) (pos : size_t) : size_t :=
if length s <? length v then npos
else highest (matches_at s v)
       (S (N.to_nat (N.min pos (N.of_nat (length s - length v))))).

Definition find_first_of (s v : list T) (pos : size_t) : size_t :=
if (N.of_nat (length s) <=? pos)%N then npos
else lowest (one_of s v) (N.to_nat pos) (length s - N.to_nat pos).

Definition find_last_of (s v : list T) (pos : size_t) : size_t :=
highest (one_of s v) (N.to_nat (N.min (N.succ pos) (N.of_nat (length s)))).

Definition find_first_not_of (s v : list T) (pos : size_t) : size_t :=
if (N.of_nat (length s) <=? pos)%N then npos
else lowest (none_of s v) (N.to_nat pos) (length s - N.to_nat pos).

Definition find_last_not_of (s v : list T) (pos : size_t) : size_t :=
highest (none_of s v) (N.to_nat (N.min (N.succ pos) (N.of_nat (length s)))).

End Search.
End string_view.

(** The overloads of the search family that take another literal,
    [template <size_t M> ... (const Resized<M>& str, size_t pos)]:
    [if constexpr (M > N) return npos;] and otherwise the search of the
    two views. *)
Section Find.
Context {T : Type} `{Element T} `{EqDecision T} {N : nat}.
Variable M : nat.

Definition find (self : literal_t T N) (str : literal_t T (Resized M))
    (pos : size_t) : size_t :=
  if N <? M then npos else string_view.find (sv self) (sv str) pos.

Definition rfind (self : literal_t T N) (str : literal_t T (Resized M))
    (pos : size_t) : size_t :=
  if N <? M then npos else string_view.rfind (sv self) (sv str) pos.

Definition find_first_of (self : literal_t T N)
    (str : literal_t T (Resized M)) (pos : size_t) : size_t :=
  if N <? M then npos else string_view.find_first_of (sv self) (sv str) pos.

Definition find_last_of (self : literal_t T N)
    (str : literal_t T (Resized M)) (pos : size_t) : size_t :=
  if N <? M then npos else string_view.find_last_of (sv self) (sv str) pos.

Definition find_first_not_of (self : literal_t T N)
    (str : literal_t T (Resized M)) (pos : size_t) : size_t :=
  if N <? M then npos
  else string_view.find_first_not_of (sv self) (sv str) pos.

Definition find_last_not_of (self : literal_t T N)
    (str : literal_t T (Resized M)) (pos : size_t) : size_t :=
  if N <? M then npos
  else string_view.find_last_not_of (sv self) (sv str) pos.

End Find.

(** ** The storage invariants *)

(** [0 <= size() <= N], and the slot at index [size()] holds the element
    type's zero value. *)
Definition invariant {T : Type} `{Element T} {N : nat}
    (self : literal_t T N) : Prop :=
  size self ≤ N ∧ _data self !! size self = Some zero.

(** The last slot, the one no scan of [size()] reads and no copy loop
    of a well-sized source writes, holds the zero value. *)
Definition terminated {T : Type} `{Element T} {N : nat}
    (self : literal_t T N) : Prop :=
  _data self !! N = Some zero.

(** A literal with all its [N + 1] slots and a zero in the last one. *)
Definition sealed {T : Type} `{Element T} {N : nat}
    (self : literal_t T N) : Prop :=
  well_formed self ∧ terminated self.

(** Some literals of the test suite. *)
Definition chars (s : string) : list char := list_ascii_of_string s.

(** [constexpr literal_t fixedString = "Test String";]: the array has 12
    elements, the deduced capacity is [bit_ceil(12)]. *)
Definition fixedString : literal_t char (Resized 12) :=
  from_array (Resized 12) (chars "Test String" ++ [zero]).

(** [constexpr literal_t emptyString2 = "";] *)
Definition emptyString2 : literal_t char (Resized 1) :=
  from_array (Resized 1) [zero].

(** [constexpr literal_t emptyString4 = "\0\0\0";] *)
Definition emptyString4 : literal_t char (Resized 4) :=
  from_array (Resized 4) [zero; zero; zero; zero].

(** [constexpr literal_t emptyUndefined{};] *)
Definition emptyUndefined : literal_t Unsupported 0 := literal_default 0.

(** ** Further members of the container *)

(** [clamp<pos, count, size>()] *)
Definition clamp (pos count size : size_t) : size_t :=
  if (size <=? pos)%N then 0%N
  else if (count <? size - pos)%N then count else (size - pos)%N.

(** [std::char_traits<T>]: [length] over the elements reachable from a
    pointer into an array, and [compare] over the first [n] elements,
    with [lt] the traits' order on the character type. *)
Module char_traits.
Section Traits.
Context {T : Type} `{Element T} `{EqDecision T}.
Variable lt : T → T → bool.

(** The number of elements before the first null; [None] when the array
    holds no null, where the count runs past its end. *)
Fixpoint length (s : list T) : option nat :=
  match s with
  | [] => None
  | c :: s' => if decide (c = zero) then Some 0 else S <$> length s'
  end.

Fixpoint compare (s1 s2 : list T) (n : nat) : comparison :=
  match n, s1, s2 with
  | S k, x :: s1', y :: s2' =>
      if lt x y then Lt
      else if lt y x then Gt
      else compare s1' s2' k
  | _, _, _ => Eq
  end.

End Traits.
End char_traits.

(** [std::basic_string_view]: construction from a pointer, [substr] for a
    position within the view (the only use here), and [compare]. *)
Section Views.
Context {T : Type} `{Element T} `{EqDecision T}.
Variable lt : T → T → bool.

(** [basic_string_view(const T* s)] on the first element of [array] *)
Definition view_of_pointer (array : list T) : outcome (list T) :=
  match char_traits.length array with
  | Some n => Return (take n array)
  | None => Stuck
  end.

(** [substr(pos, count)], for [pos <= size()] *)
Definition view_substr (s : list T) (pos : nat) (count : size_t) : list T :=
  take (N.to_nat (N.min count (N.of_nat (length s - pos)))) (drop pos s).

(** [compare(v)]: the traits' comparison over the common length, then the
    comparison of the lengths; the sign of the result. *)
Definition view_compare (s v : list T) : comparison :=
  match char_traits.compare lt s v (length s `min` length v) with
  | Eq => Nat.compare (length s) (length v)
  | r => r
  end.

End Views.

Section Members.
Context {T : Type} `{Element T} `{EqDecision T} {N : nat}.
Variable lt : T → T → bool.
Implicit Types self : literal_t T N.

(** [operator T()], which requires [N == 0] *)
Definition operator_T self : T := slot self 0.



(** [begin()] and [end()], as offsets from [_data.begin()] *)
Definition begin_ self : nat := 0.
Definition end_ self : nat := size self.

(** [rbegin()] and [rend()], as the offsets of the bases of the reverse
    iterators: [_data.rbegin()] has base [_data.end()], at offset [N + 1],
    and adding [N - size()] to it moves the base down by as much. *)
Definition rbegin self : nat := S N - (N - size self).
Definition rend self : nat := 0.

(** The elements a loop [for (it = first; it != last; ++it)] visits, for
    iterators and for reverse iterators (which dereference to the element
    before their base); [fuel] bounds the number of steps. *)
Fixpoint visit (data : list T) (it last : nat) (fuel : nat) : list T :=
  match fuel with
  | 0 => []
  | S k =>
      if it =? last then []
      else match data !! it with
           | Some c => c :: visit data (S it) last k
           | None => []
           end
  end.

Fixpoint visit_reverse (data : list T) (base last : nat) (fuel : nat)
  : list T :=
  match fuel with
  | 0 => []
  | S k =>
      if base =? last then []
      else match data !! (base - 1) with
           | Some c => c :: visit_reverse data (base - 1) last k
           | None => []
           end
  end.

(** [for (auto& c : self)] and the loop from [rbegin()] to [rend()] *)
Definition iterate self : list T :=
  visit (_data self) (begin_ self) (end_ self) (S N).
Definition iterate_reverse self : list T :=
  visit_reverse (_data self) (rbegin self) (rend self) (S (S N)).

(** [find(const view_type& view, size_t pos)] and [find(value_type c,
    size_t pos)] *)
Definition find_view self (view : list T) (pos : size_t) : size_t :=
  string_view.find (sv self) view pos.
Definition find_char self (c : T) (pos : size_t) : size_t :=
  string_view.find (sv self) [c] pos.

(** [compare(size_t pos1, size_t count1, view_type v)], for
    [pos1 <= size()] *)
Definition compare_at self (pos1 : nat) (count1 : size_t) (v : list T)
  : comparison :=
  view_compare lt (view_substr (sv self) pos1 count1) v.

(** [starts_with(view_type v)]: [sv().substr(0, v.size()) == v] *)
Definition starts_with self (v : list T) : bool :=
  bool_decide (view_substr (sv self) 0 (N.of_nat (length v)) = v).


(** [ends_with(view_type sv)] *)
Definition ends_with self (v : list T) : bool :=
  (length v <=? size self) &&
  match compare_at self (size self - length v) npos v with
  | Eq => true
  | _ => false
  end.


(** [contains(view_type sv)] and [contains(value_type c)] *)
Definition contains self (v : list T) : bool :=
  negb (find_view self v 0 =? npos)%N.
Definition contains_char self (c : T) : bool :=
  negb (find_char self c 0 =? npos)%N.

(** [at(n)]: [_data.at(n)], which throws [std::out_of_range] outside the
    [N + 1] slots; [None] stands for the throw. *)
Definition at_ self (n : nat) : option T :=
  if S N <=? n then None else _data self !! n.

End Members.

(** ** Comparison with views and arrays, ordering *)

Section Comparisons.
Context {T : Type} `{Element T} `{EqDecision T} {N : nat}.
Variable lt : T → T → bool.

(** [operator == (const S& lhs, typename S::view_type rhs)] and its
    mirror image, for a string [S] *)
Definition eq_view (lhs : literal_t T N) (rhs : list T) : bool :=
  bool_decide (sv lhs = rhs).

(** [operator == (const S& lhs, const typename S::value_type(&rhs)[M])]
    for a string [S]: the array becomes a view through its pointer. *)
Definition eq_array (lhs : literal_t T N) (rhs : list T) : outcome bool :=
  v ← view_of_pointer rhs; Return (bool_decide (v = sv lhs)).

(** The same operator for an undefined [S]: [rhs[0] == '\0'] *)
Definition eq_array_undefined (rhs : list T) : outcome bool :=
  match rhs with
  | c :: _ => Return (bool_decide (c = zero))
  | [] => Stuck
  end.


End Comparisons.

(** The built-in [==] on [char]. *)
Definition char_eq (x y : char) : bool := bool_decide (x = y).

(** [std::char_traits<char>::lt]: the order of the two code units taken
    as unsigned values. *)
Definition char_lt (x y : char) : bool := nat_of_ascii x <? nat_of_ascii y.

(** What the traits' [lt] is on every character type: a strict total
    order. *)
Definition strict_total {T : Type} (lt : T → T → bool) : Prop :=
  (∀ x y, lt x y = true → lt y x = false) ∧
  (∀ x y, lt x y = false → lt y x = false → x = y).

(** ** Concatenation with arrays *)

(** [operator + (const C(&lhs)[M], const RHS& rhs)]:
    [Resized<M + RHS::ArraySize> result {lhs}; result += rhs;] *)
Definition concat_array_literal {T : Type} `{Element T} {N2 : nat}
    (lhs : list T) (rhs : literal_t T N2)
  : literal_t T (Resized (length lhs + N2)) :=
  append_literal (from_array (Resized (length lhs + N2)) lhs) rhs.

(** [operator + (const LHS& lhs, const C(&rhs)[M])]:
    [Resized<LHS::ArraySize + M> result {lhs}; result += rhs;] *)
Definition concat_literal_array {N1 : nat} (lhs : literal_t char N1)
    (rhs : list char) : literal_t char (Resized (N1 + length rhs)) :=
  append_array (widen (Resized (N1 + length rhs)) lhs) rhs.

(** ** Aliasing, conversions and overload resolution *)

(** The loop of [operator +=] when the source is the receiver itself,
    [s += s]: the pointer [s] then runs over the buffer that [d] writes,
    and a read sees what an earlier step has stored.  [n] is the number
    of slots left before [data() + ArraySize]; [d], [s] and [sEnd] are
    offsets into the one buffer.  The reads stay inside it, [s] being
    below [sEnd], which is at most [N + 1]. *)
Fixpoint append_loop_live {T : Type} (n d s sEnd : nat) (buf : list T)
  : list T :=
  match n with
  | 0 => buf
  | S k =>
      if decide (s = sEnd) then buf
      else match buf !! s with
           | Some c => append_loop_live k (S d) (S s) sEnd (<[d := c]> buf)
           | None => buf
           end
  end.

(** [self += self]: [d = data() + size()], [s = data()] and
    [sEnd = data() + size() + 1], computed before the first write. *)
Definition append_self {T : Type} `{Element T} {N : nat}
    (self : literal_t T N) : literal_t T N :=
  mk_literal (append_loop_live (N - size self) (size self) 0 (size self + 1)
                (_data self)).

(** [operator += (const CT::LiteralString auto& rhs)] for a source of
    another character type [U]: the assignment [*(d++) = *(s++)] converts
    each element, [conv] being that conversion.  Such a source is never
    the receiver. *)
Definition append_literal_from {T U : Type} `{Element T} `{Element U}
    {N M : nat} (conv : U → T) (self : literal_t T N) (rhs : literal_t U M)
  : literal_t T N :=
  mk_literal (append_loop (size self) N
                (conv <$> take (size rhs + 1) (_data rhs)) (_data self)).

(** [operator += (const C(&rhs)[M])] for an array of another character
    type [C]. *)
Definition append_array_from {T U : Type} `{Element T} {N : nat}
    (conv : U → T) (self : literal_t T N) (rhs : list U) : literal_t T N :=
  mk_literal (append_loop (size self) N (conv <$> rhs) (_data self)).

(** What a truncating append of the source elements [src] to [self]
    leaves in its result [r]: the storage keeps its [N + 1] slots; the
    elements are copied to the slots from index [size()] on and no
    further than slot [N - 1], the other slots being as they were; and
    of a source longer than the remaining capacity exactly
    [N - size()] elements are copied, [size()] of the result being [N]
    when the copied elements are all non-zero. *)
Definition appended {T : Type} `{Element T} {N : nat}
    (self : literal_t T N) (src : list T) (r : literal_t T N) : Prop :=
  well_formed r ∧
  _data r = take (size self) (_data self) ++ take (N - size self) src ++
            drop (size self + (N - size self) `min` length src)
              (_data self) ∧
  (N - size self < length src →
   _data r = take (size self) (_data self) ++
             take (N - size self) src ++ drop N (_data self) ∧
   length (take (N - size self) src) = N - size self ∧
   ((∀ c, c ∈ take (N - size self) src → to_bool c = true) →
    size r = N)).

(** [self = array] for an array whose extent is not [N]:
    [operator = (const value_type(&)[N])] is then no candidate; the array
    is converted by the array constructor, which requires an extent of at
    most [N + 1], and the temporary is copy-assigned, all [N + 1] slots. *)
Definition assign_converted {T : Type} `{Element T} {N : nat}
    (self : literal_t T N) (array : list T) : literal_t T N :=
  from_array N array.

(** The search family called in the ordinary way, [a.find(b, pos)] with a
    literal [b] and no template argument.  The parameter type of the
    literal overloads is [const Resized<M>&], that is
    [const literal_t<T, std::bit_ceil(M)>&], in which [M] cannot be
    deduced; these overloads are therefore no candidates, [b] is
    converted by [operator view_type] and the overload taking
    [const view_type&] is called, for an operand of any capacity [K]. *)
Section OrdinaryCall.
Context {T : Type} `{Element T} `{EqDecision T} {N K : nat}.

Definition find_call (self : literal_t T N) (str : literal_t T K)
    (pos : size_t) : size_t :=
  string_view.find (sv self) (sv str) pos.

Definition rfind_call (self : literal_t T N) (str : literal_t T K)
    (pos : size_t) : size_t :=
  string_view.rfind (sv self) (sv str) pos.

Definition find_first_of_call (self : literal_t T N) (str : literal_t T K)
    (pos : size_t) : size_t :=
  string_view.find_first_of (sv self) (sv str) pos.

Definition find_last_of_call (self : literal_t T N) (str : literal_t T K)
    (pos : size_t) : size_t :=
  string_view.find_last_of (sv self) (sv str) pos.

Definition find_first_not_of_call (self : literal_t T N)
    (str : literal_t T K) (pos : size_t) : size_t :=
  string_view.find_first_not_of (sv self) (sv str) pos.

Definition find_last_not_of_call (self : literal_t T N)
    (str : literal_t T K) (pos : size_t) : size_t :=
  string_view.find_last_not_of (sv self) (sv str) pos.

End OrdinaryCall.

(** Two more literals: a [literal_t<char, 4>] built from the array
    [{'a','b','c','d','e'}], whose five elements fill all five slots, and
    [literal_t {"a\0\0\0\0"}], an array of six elements in the deduced
    capacity [bit_ceil(6)]. *)
Definition filled4 : literal_t char 4 := from_array 4 (chars "abcde").

Definition padded8 : literal_t char (Resized 6) :=
  from_array (Resized 6) (chars "a" ++ [zero; zero; zero; zero; zero]).

(** * Properties *)

(** ** Capacity bucketing *)

Section Capacity.

Lemma bit_ceil_pow2 (M : nat) : ∃ k, bit_ceil M = 2 ^ k.
Proof.
  unfold bit_ceil. destruct (M <=? 1).
  - by exists 0.
  - by eexists.
Qed.

Lemma bit_ceil_ge (M : nat) : M ≤ bit_ceil M.
Proof.
  unfold bit_ceil. destruct (Nat.leb_spec M 1) as [|Hlt]; [lia|].
  pose proof (Nat.log2_spec (M - 1) ltac:(lia)) as [_ Hup]. lia.
Qed.

Lemma bit_ceil_least (M k : nat) : M ≤ 2 ^ k → bit_ceil M ≤ 2 ^ k.
Proof.
  intros Hle. unfold bit_ceil. destruct (Nat.leb_spec M 1) as [|Hlt].
  - pose proof (Nat.pow_nonzero 2 k). lia.
  - apply Nat.pow_le_mono_r; [lia|].
    apply Nat.le_succ_l, Nat.log2_lt_pow2; lia.
Qed.

End Capacity.

(** C1, as the code has it: the bucketing function never yields 0.  It maps
    every source length M, 0 included, to the smallest power of two that is
    greater than or equal to M, so Resize(0)=1, Resize(1)=1, Resize(2)=2,
    Resize(3)=4 and Resize(5)=8. *)
Theorem C1_Resized_smallest_power_of_two :
  (∀ M, (∃ k, Resized M = 2 ^ k) ∧ M ≤ Resized M ∧
        ∀ k, M ≤ 2 ^ k → Resized M ≤ 2 ^ k) ∧
  Resized 0 = 1 ∧ Resized 1 = 1 ∧ Resized 2 = 2 ∧ Resized 3 = 4 ∧
  Resized 5 = 8.
Proof.
  split; [|by repeat split].
  intros M. unfold Resized.
  auto using bit_ceil_pow2, bit_ceil_ge, bit_ceil_least.
Qed.

(** C1 as stated fails at M = 0: the claim wants Resize(0)=0, the code
    buckets a length of 0 to capacity 1. *)
Lemma C1_Resized_zero_is_not_zero :
  ¬ (∀ M, Resized M = if M =? 0 then 0 else Resized M) ∧ Resized 0 ≠ 0.
Proof.
  split; [|discriminate].
  intros Hall. specialize (Hall 0). discriminate.
Qed.

(** ** The loops *)

Section Loops.
Context {T : Type}.
Implicit Types src dst l : list T.

Lemma copy_array_spec src : ∀ i dst,
  i + length src ≤ length dst →
  copy_array i src dst = take i dst ++ src ++ drop (i + length src) dst.
Proof.
  induction src as [|c src IH]; intros i dst Hlen; simpl in *.
  - by rewrite Nat.add_0_r, take_drop.
  - rewrite IH by (rewrite length_insert; lia).
    rewrite (take_S_r _ i c) by (apply list_lookup_insert_eq; lia).
    rewrite take_insert_ge by lia.
    rewrite drop_insert_lt by lia.
    rewrite <- app_assoc. simpl. do 3 f_equal. f_equal. lia.
Qed.

Lemma copy_array_length src : ∀ i dst,
  length (copy_array i src dst) = length dst.
Proof.
  induction src as [|c src IH]; intros i dst; simpl; [done|].
  by rewrite IH, length_insert.
Qed.

Lemma copy_range_length pos count src dst :
  length (copy_range pos count src dst) = length dst.
Proof.
  unfold copy_range. generalize (seq 0 count). intros idx.
  revert dst. induction idx as [|i idx IH]; intros dst; simpl; [done|].
  rewrite IH. destruct (src !! (pos + i)); [apply length_insert|done].
Qed.

Lemma copy_range_spec pos count src dst :
  pos + count ≤ length src → count ≤ length dst →
  copy_range pos count src dst = take count (drop pos src) ++ drop count dst.
Proof.
  unfold copy_range. intros Hsrc Hdst.
  induction count as [|k IH].
  - by rewrite take_0, drop_0.
  - rewrite seq_S, foldl_app, IH by lia. simpl.
    destruct (lookup_lt_is_Some_2 src (pos + k)) as [c Hc]; [lia|].
    rewrite Hc.
    rewrite insert_app_r_alt by (rewrite length_take, length_drop; lia).
    rewrite length_take, length_drop.
    replace (k - k `min` (length src - pos)) with 0 by lia.
    erewrite (take_S_r _ k c) by (by rewrite lookup_drop).
    rewrite <- app_assoc. f_equal.
    destruct (lookup_lt_is_Some_2 dst k) as [x Hx]; [lia|].
    by rewrite (drop_S dst x k Hx).
Qed.

Lemma append_loop_length src : ∀ d dEnd dst,
  length (append_loop d dEnd src dst) = length dst.
Proof.
  induction src as [|c src IH]; intros d dEnd dst; simpl; [done|].
  case_decide; [done|]. by rewrite IH, length_insert.
Qed.

Lemma append_loop_spec src : ∀ d dEnd dst,
  d ≤ dEnd → dEnd ≤ length dst →
  append_loop d dEnd src dst =
    take d dst ++ take (dEnd - d) src ++
    drop (d + (dEnd - d) `min` length src) dst.
Proof.
  induction src as [|c src IH]; intros d dEnd dst Hd Hend; simpl.
  - rewrite take_nil, Nat.min_0_r, Nat.add_0_r. simpl. by rewrite take_drop.
  - case_decide as Heq.
    + subst. rewrite Nat.sub_diag. simpl. by rewrite Nat.add_0_r, take_drop.
    + rewrite IH by (rewrite ?length_insert; lia).
      destruct (dEnd - d) as [|k] eqn:Hk; [lia|].
      replace (dEnd - S d) with k by lia. simpl.
      assert (d < length dst) by lia.
      rewrite (take_S_r _ d c) by (apply list_lookup_insert_eq; lia).
      rewrite take_insert_ge by lia.
      rewrite drop_insert_lt by lia.
      rewrite <- app_assoc. simpl. do 3 f_equal. f_equal. lia.
Qed.

End Loops.

(** ** Size by scan *)

Lemma char_character_type : character_type char.
Proof.
  repeat split; simpl.
  - intros Hc. apply negb_false_iff in Hc. by apply Ascii.eqb_eq in Hc.
  - intros ->. reflexivity.
Qed.

Section Scan.
Context {T : Type} `{Element T}.
Implicit Types l : list T.

Lemma scan_le n : ∀ l, scan n l ≤ n.
Proof.
  induction n as [|n IH]; intros [|c l]; simpl; try lia.
  destruct (to_bool c); [|lia]. specialize (IH l). lia.
Qed.

Lemma scan_true n : ∀ l i,
  i < scan n l → ∃ c, l !! i = Some c ∧ to_bool c = true.
Proof.
  induction n as [|n IH]; intros [|c l] i; simpl; try lia.
  destruct (to_bool c) eqn:Hc; [|lia].
  destruct i as [|i]; simpl; [eauto|].
  intros Hi. apply IH. lia.
Qed.

Lemma scan_stop n : ∀ l,
  scan n l < n → scan n l < length l →
  ∃ c, l !! scan n l = Some c ∧ to_bool c = false.
Proof.
  induction n as [|n IH]; intros [|c l]; simpl; try lia.
  destruct (to_bool c) eqn:Hc; [|eauto].
  intros Hn Hl. apply IH; lia.
Qed.

Lemma scan_unique n : ∀ l k,
  k ≤ n →
  (∀ i, i < k → ∃ c, l !! i = Some c ∧ to_bool c = true) →
  (k = n ∨ ∃ c, l !! k = Some c ∧ to_bool c = false) →
  scan n l = k.
Proof.
  induction n as [|n IH]; intros l k Hk Htrue Hstop; simpl.
  - lia.
  - destruct k as [|k].
    + destruct Hstop as [|(c & Hc & Hf)]; [lia|].
      destruct l as [|c' l]; [done|]. simpl in Hc. simplify_eq.
      by rewrite Hf.
    + destruct (Htrue 0) as (c & Hc & Ht); [lia|].
      destruct l as [|c' l]; [done|]. simpl in Hc. simplify_eq.
      rewrite Ht. f_equal. apply IH; [lia| |].
      * intros i Hi. apply (Htrue (S i)). lia.
      * destruct Hstop as [|Hstop]; [left; lia|by right].
Qed.

End Scan.

Section Size.
Context {T : Type} `{Element T} {N : nat}.
Implicit Types self : literal_t T N.

Lemma size_le self : size self ≤ N.
Proof.
  unfold size. destruct (_ && _); [apply scan_le|lia].
Qed.

Lemma size_populated self i :
  i < size self → ∃ c, _data self !! i = Some c ∧ to_bool c = true.
Proof.
  unfold size. destruct (_ && _); [apply scan_true|lia].
Qed.

(** The scan of a string: [N > 0] and the element type is not
    [Unsupported]. *)
Lemma size_unique self k :
  0 < N → @Undefined T _ = false → k ≤ N →
  (∀ i, i < k → ∃ c, _data self !! i = Some c ∧ to_bool c = true) →
  (k = N ∨ ∃ c, _data self !! k = Some c ∧ to_bool c = false) →
  size self = k.
Proof.
  intros HN HU. unfold size.
  apply Nat.ltb_lt in HN. rewrite HN, HU. simpl. apply scan_unique.
Qed.

Lemma size_string_stop self :
  0 < N → @Undefined T _ = false → well_formed self → size self < N →
  ∃ c, _data self !! size self = Some c ∧ to_bool c = false.
Proof.
  intros HN HU Hwf. unfold size, well_formed in *.
  apply Nat.ltb_lt in HN. rewrite HN, HU. simpl.
  intros Hlt. apply scan_stop; [done|lia].
Qed.

Lemma empty_size self :
  0 < N → @Undefined T _ = false → well_formed self →
  empty self = true ↔ size self = 0.
Proof.
  intros HN HU Hwf. unfold empty, size, slot, well_formed in *.
  pose proof HN as HN'. apply Nat.ltb_lt in HN'. rewrite HN', HU. simpl.
  destruct N as [|n]; [lia|]. simpl.
  destruct (_data self) as [|c l]; [done|]. simpl.
  destruct (to_bool c); simpl; split; (done || lia).
Qed.

Lemma size_value self : N = 0 → size self = 0.
Proof. intros ->. reflexivity. Qed.

End Size.

(** ** Which slots the loops leave alone *)

Section Untouched.
Context {T : Type}.
Implicit Types src dst : list T.

Lemma copy_array_lookup_out src : ∀ i dst j,
  j < i ∨ i + length src ≤ j →
  copy_array i src dst !! j = dst !! j.
Proof.
  induction src as [|c src IH]; intros i dst j Hj; simpl in *; [done|].
  rewrite IH by lia. apply list_lookup_insert_ne. lia.
Qed.

Lemma copy_range_lookup_out pos count src dst j :
  count ≤ j → copy_range pos count src dst !! j = dst !! j.
Proof.
  unfold copy_range. induction count as [|k IH]; intros Hj; [done|].
  rewrite seq_S, foldl_app. simpl.
  destruct (src !! (pos + k)).
  - rewrite list_lookup_insert_ne by lia. apply IH. lia.
  - apply IH. lia.
Qed.

Lemma append_loop_lookup_out src : ∀ d dEnd dst j,
  d ≤ dEnd → dEnd ≤ j → append_loop d dEnd src dst !! j = dst !! j.
Proof.
  induction src as [|c src IH]; intros d dEnd dst j Hd Hj; simpl; [done|].
  case_decide; [done|].
  rewrite IH by lia. apply list_lookup_insert_ne. lia.
Qed.

End Untouched.

(** ** The storage invariants *)

Ltac storage :=
  unfold sealed, well_formed, terminated, literal_default, from_value,
    from_array, assign_array, append_array, append_literal, widen in *;
  cbn [_data] in *.

Section Invariant.
Context {T : Type} `{Element T}.
Hypothesis Hchar : character_type T.

Lemma to_bool_zero : to_bool (zero : T) = false.
Proof. by apply Hchar. Qed.

Lemma sealed_invariant {N} (self : literal_t T N) :
  sealed self → invariant self.
Proof.
  intros [Hwf Hterm]. split; [apply size_le|].
  pose proof (size_le self) as Hle.
  destruct (decide (size self = N)) as [->|Hne]; [done|].
  destruct Hchar as (_ & HU & Hzero).
  destruct (size_string_stop self) as (c & Hc & Hf); [lia|done|done|lia|].
  apply Hzero in Hf. by subst.
Qed.

Lemma literal_default_valid N :
  sealed (literal_default (T:=T) N).
Proof.
  storage. split.
  - apply length_replicate.
  - apply lookup_replicate_2. lia.
Qed.

Lemma from_value_valid N (c : T) :
  0 < N → sealed (from_value N c).
Proof.
  storage. split.
  - by rewrite length_insert, length_replicate.
  - rewrite list_lookup_insert_ne by lia. apply lookup_replicate_2. lia.
Qed.

Lemma from_array_valid N (array : list T) :
  length array ≤ S N →
  (length array = S N → array !! N = Some zero) →
  sealed (from_array N array).
Proof.
  storage. intros Hlen Hlast. split.
  - by rewrite copy_array_length, length_replicate.
  - destruct (decide (length array = S N)) as [Hfull|Hshort].
    + rewrite copy_array_spec by (rewrite length_replicate; lia).
      rewrite take_0, drop_ge by (rewrite length_replicate; lia).
      simpl. rewrite app_nil_r. auto.
    + rewrite copy_array_lookup_out by lia.
      apply lookup_replicate_2. lia.
Qed.

Lemma assign_array_valid N (self : literal_t T N) (array : list T) :
  length array = N → sealed self →
  sealed (assign_array self array).
Proof.
  storage. intros Hlen [Hwf Hterm]. split.
  - by rewrite copy_array_length.
  - by rewrite copy_array_lookup_out by lia.
Qed.

Lemma append_array_valid N (self : literal_t T N) (rhs : list T) :
  sealed self →
  sealed (append_array self rhs).
Proof.
  storage. intros [Hwf Hterm]. split.
  - by rewrite append_loop_length.
  - rewrite append_loop_lookup_out; [done|apply size_le|done].
Qed.

Lemma append_literal_valid N M (self : literal_t T N) (rhs : literal_t T M) :
  sealed self →
  sealed (append_literal self rhs).
Proof.
  storage. intros [Hwf Hterm]. split.
  - by rewrite append_loop_length.
  - rewrite append_loop_lookup_out; [done|apply size_le|done].
Qed.

Lemma substr_valid N (self : literal_t T N) (pos count : size_t) :
  well_formed self →
  sealed (substr self pos count).
Proof.
  intros Hwf. unfold substr.
  destruct (_ <=? _)%N eqn:Hpos; [apply literal_default_valid|].
  apply N.leb_gt in Hpos.
  pose proof (size_le self) as Hle.
  set (p := N.to_nat pos) in *.
  set (k := if (_ <? count)%N then _ else _).
  assert (k ≤ size self - p) as Hk.
  { subst k. destruct (N.ltb_spec (N.of_nat (size self - p)) count); lia. }
  storage. split.
  - by rewrite length_insert, copy_range_length, length_replicate.
  - destruct (decide (k = N)) as [->|Hne].
    + apply list_lookup_insert_eq.
      rewrite copy_range_length, length_replicate. lia.
    + rewrite list_lookup_insert_ne by done.
      rewrite copy_range_lookup_out by lia.
      apply lookup_replicate_2. lia.
Qed.

End Invariant.

Lemma widen_valid M N (other : literal_t char M) :
  M < N → sealed (widen N other).
Proof.
  intros HM. storage. split.
  - by rewrite length_insert, copy_range_length, length_replicate.
  - rewrite list_lookup_insert_ne by lia.
    rewrite copy_range_lookup_out by lia.
    apply lookup_replicate_2. lia.
Qed.

(** *** The append of a literal to itself *)

Section AppendLive.
Context {T : Type}.
Implicit Types src buf : list T.

Lemma append_loop_live_snapshot src : ∀ n d s buf,
  s < d → d + n ≤ length buf →
  (∀ i, i < length src → s + i < d → buf !! (s + i) = src !! i) →
  (∀ i, i < length src → d ≤ s + i → src !! i = src !! (s + i - d)) →
  append_loop_live n d s (s + length src) buf = append_loop d (d + n) src buf.
Proof.
  induction src as [|c src IH]; intros n d s buf Hsd Hlen Hread Hlater.
  - simpl. rewrite Nat.add_0_r. destruct n; simpl; [done|].
    by rewrite decide_True.
  - destruct n as [|n]; simpl.
    { by rewrite Nat.add_0_r, decide_True. }
    rewrite decide_False by lia. rewrite decide_False by lia.
    specialize (Hread 0) as Hfirst. rewrite Nat.add_0_r in Hfirst.
    rewrite Hfirst by (simpl; lia). simpl.
    replace (s + S (length src)) with (S s + length src) by lia.
    replace (d + S n) with (S d + n) by lia.
    apply IH; [lia|rewrite length_insert; lia| |].
    + intros i Hi Hlt.
      destruct (decide (s + S i = d)) as [Heq|Hne].
      * replace (S s + i) with d by lia.
        rewrite list_lookup_insert_eq by lia.
        specialize (Hlater (S i)). simpl in Hlater.
        rewrite Hlater by lia.
        by replace (s + S i - d) with 0 by lia.
      * rewrite list_lookup_insert_ne by lia.
        replace (S s + i) with (s + S i) by lia.
        rewrite Hread by (simpl; lia). done.
    + intros i Hi Hge.
      specialize (Hlater (S i)). simpl in Hlater.
      rewrite Hlater by lia.
      replace (s + S i - d) with (S (S s + i - S d)) by lia. done.
Qed.

End AppendLive.

Section AppendSelf.
Context {T : Type} `{Element T} {N : nat}.
Implicit Types self : literal_t T N.

(** What the loop of [s += s] reads: the content, and then, in place of
    the terminator at index [size()], the first element again, which the
    first step has stored there. *)
Lemma append_self_as_array self :
  well_formed self →
  append_self self = append_array self (sv self ++ take 1 (_data self)).
Proof.
  intros Hwf. pose proof (size_le self) as Hle.
  unfold append_self, append_array. f_equal.
  unfold well_formed in Hwf.
  destruct (_data self) as [|c0 data] eqn:Hdata; [simpl in Hwf; lia|].
  rewrite <- Hdata in *. 
  assert (take 1 (_data self) = [c0]) as -> by (by rewrite Hdata).
  destruct (decide (size self = 0)) as [Hz|Hpos].
  - unfold sv. rewrite Hz. rewrite take_0. simpl.
    destruct N as [|n]; simpl; [done|].
    rewrite Hdata. simpl. by destruct n.
  - replace (size self + 1) with (0 + length (sv self ++ [c0])).
    2:{ rewrite length_app. unfold sv. rewrite length_take. simpl. lia. }
    pose proof (append_loop_live_snapshot (sv self ++ [c0])
                  (N - size self) (size self) 0 (_data self)) as Hlive.
    replace (size self + (N - size self)) with N in Hlive by lia.
    assert (length (sv self) = size self) as Hsv
      by (unfold sv; rewrite length_take; lia).
    apply Hlive; [lia|lia| |].
    + intros i Hi Hlt. simpl in *.
      rewrite lookup_app_l by lia. unfold sv. by rewrite lookup_take_lt.
    + intros i Hi Hge. rewrite length_app in Hi. simpl in *.
      replace i with (size self) by lia.
      rewrite Nat.sub_diag.
      rewrite lookup_app_r by lia. rewrite Hsv, Nat.sub_diag.
      rewrite lookup_app_l by lia. unfold sv.
      rewrite lookup_take_lt by lia. by rewrite Hdata.
Qed.
End AppendSelf.

(** C7, as the code has it.  Every instance has 0 <= size() <= N.  Every
    Undefined instance satisfies both invariants.  A Value built from a
    scalar c has size() 0 and holds c in slot 0, so that its slot at index
    size() holds zero exactly when c is zero.  A String-category instance
    whose last slot (index N) holds zero has a zero in the slot at index
    size().  The last slot holds zero after default construction, after
    construction from a scalar when N > 0, after construction from an
    array of at most N elements or of N + 1 elements ending in zero, after
    the assignment of such an array when its extent is not N (the array is
    converted by the constructor and all slots are copied), after
    construction from an instance of a smaller capacity, and after substr.
    The assignment of an array of exactly N elements and every truncating
    append, from an array or an instance of any character type or from the
    receiver itself, never write the last slot. *)
Theorem C7_sealed_literals_keep_the_invariants
    {T : Type} `{Element T} (N : nat) :
  (∀ self : literal_t T N, size self ≤ N) ∧
  (∀ u : literal_t Unsupported N, well_formed u → invariant u) ∧
  (∀ c : T,
     let v := from_value 0 c in
     well_formed v ∧ size v = 0 ∧ _data v !! size v = Some c ∧
     (invariant v ↔ c = zero)) ∧
  (character_type T →
   ∀ self : literal_t T N, sealed self → invariant self) ∧
  sealed (literal_default (T:=T) N) ∧
  (∀ c : T, 0 < N → sealed (from_value N c)) ∧
  (∀ array : list T,
     length array ≤ S N → (length array = S N → array !! N = Some zero) →
     sealed (from_array N array)) ∧
  (∀ (self : literal_t T N) (array : list T),
     length array ≠ N →
     length array ≤ S N → (length array = S N → array !! N = Some zero) →
     sealed (assign_converted self array)) ∧
  (∀ (M : nat) (other : literal_t char M), M < N → sealed (widen N other)) ∧
  (∀ (self : literal_t T N) (pos count : size_t),
     well_formed self → sealed (substr self pos count)) ∧
  (∀ (self : literal_t T N) (array : list T),
     length array = N → sealed self → sealed (assign_array self array)) ∧
  (∀ (self : literal_t T N) (rhs : list T),
     sealed self → sealed (append_array self rhs)) ∧
  (∀ (U : Type) (conv : U → T) (self : literal_t T N) (rhs : list U),
     sealed self → sealed (append_array_from conv self rhs)) ∧
  (∀ (M : nat) (self : literal_t T N) (rhs : literal_t T M),
     sealed self → sealed (append_literal self rhs)) ∧
  (∀ (U : Type) (HU : Element U) (M : nat) (conv : U → T)
     (self : literal_t T N) (rhs : literal_t U M),
     sealed self → sealed (append_literal_from conv self rhs)) ∧
  (∀ self : literal_t T N, sealed self → sealed (append_self self)).
Proof.
  split_and!.
  - apply size_le.
  - intros u Hwf. unfold invariant, size. simpl.
    rewrite andb_false_r. split; [lia|].
    unfold well_formed in Hwf.
    destruct (_data u) as [|[] data]; [simpl in Hwf; lia|done].
  - intros c v. subst v. split_and!; [done..|].
    unfold invariant. cbn. split; [intros [_ ?]; by simplify_eq|].
    intros ->. split; [lia|done].
  - intros Hchar self. by apply sealed_invariant.
  - apply literal_default_valid.
  - intros c. apply from_value_valid.
  - intros array. apply from_array_valid.
  - intros self array _. apply from_array_valid.
  - intros M other. apply widen_valid.
  - intros self pos count. by apply substr_valid.
  - intros self array. by apply assign_array_valid.
  - intros self rhs. apply append_array_valid.
  - intros U conv self rhs. apply (append_array_valid N self (conv <$> rhs)).
  - intros M self rhs. apply append_literal_valid.
  - intros U HU M conv self rhs.
    apply (append_array_valid N self
             (conv <$> take (size rhs + 1) (_data rhs))).
  - intros self Hs. rewrite append_self_as_array by apply Hs.
    by apply append_array_valid.
Qed.

(** An instance of C7: ["ab"] built from its three-element array, then
    appended with ["cdefgh"], in a literal of capacity 4. *)
Lemma C7_sealed_literals_witness :
  invariant (append_array (from_array 4 (chars "ab" ++ [zero]))
               (chars "cdefgh" ++ [zero])).
Proof.
  destruct (C7_sealed_literals_keep_the_invariants (T:=char) 4)
    as (_ & _ & _ & Hinv & _ & _ & Harray & _ & _ & _ & _ & Happend & _).
  apply (Hinv char_character_type), Happend, Harray;
    simpl; [lia|intros; lia].
Defined.

(** C7 as stated fails for a value, the result of construction from a
    scalar: its size() is 0 by convention and slot 0 holds the element, so
    that the slot at index size() is not zero. *)
Lemma C7_value_holds_its_element_in_slot_zero :
  let v : literal_t Z 0 := from_value 0 5%Z in
  LiteralValue Z 0 = true ∧ well_formed v ∧
  size v = 0 ∧ _data v !! size v = Some 5%Z ∧ ¬ invariant v.
Proof.
  intros v. split_and!; try reflexivity.
  intros [_ Hzero]. vm_compute in Hzero. discriminate.
Qed.

(** The array constructor takes up to N + 1 elements and copies them as
    they are: from two non-zero elements, a string of capacity 1 has
    size() = 1 and a non-zero element in the slot at index size(). *)
Lemma unterminated_array_is_not_sealed :
  let s : literal_t char 1 := from_array 1 (chars "ab") in
  LiteralString char 1 = true ∧ length (chars "ab") ≤ 1 + 1 ∧
  well_formed s ∧ size s = 1 ∧ _data s !! size s = Some "b"%char ∧
  ¬ invariant s.
Proof.
  intros s. split_and!; try reflexivity.
  intros [_ Hzero]. vm_compute in Hzero. discriminate.
Qed.

(** ** Truncating append *)

Section AppendLoop.
Context {T : Type}.
Implicit Types src dst : list T.

Lemma append_loop_lookup_before src : ∀ d dEnd dst j,
  j < d → append_loop d dEnd src dst !! j = dst !! j.
Proof.
  induction src as [|c src IH]; intros d dEnd dst j Hj; simpl; [done|].
  case_decide; [done|].
  rewrite IH by lia. apply list_lookup_insert_ne. lia.
Qed.

Lemma append_loop_lookup_copied src : ∀ d dEnd dst j,
  d ≤ j → j < dEnd → dEnd ≤ length dst → j - d < length src →
  append_loop d dEnd src dst !! j = src !! (j - d).
Proof.
  induction src as [|c src IH]; intros d dEnd dst j Hd Hj Hlen Hsrc;
    simpl in *; [lia|].
  case_decide; [lia|].
  destruct (decide (j = d)) as [->|Hne].
  - rewrite append_loop_lookup_before by lia.
    rewrite Nat.sub_diag. simpl. apply list_lookup_insert_eq. lia.
  - rewrite IH by (rewrite ?length_insert; lia).
    by replace (j - d) with (S (j - S d)) by lia.
Qed.

End AppendLoop.

Section Append.
Context {T : Type} `{Element T} {N : nat}.
Hypothesis Hchar : character_type T.
Implicit Types self : literal_t T N.

Lemma append_array_layout self (rhs : list T) :
  well_formed self →
  _data (append_array self rhs) =
    take (size self) (_data self) ++ take (N - size self) rhs ++
    drop (size self + (N - size self) `min` length rhs) (_data self).
Proof.
  intros Hwf. storage.
  apply append_loop_spec; [apply size_le|lia].
Qed.

(** The size after an append that copies [k] non-zero elements and then
    either fills the capacity or copies a zero. *)
Lemma size_append_array self (rhs : list T) (k : nat) :
  well_formed self → size self + k ≤ N →
  (∀ i, i < k → ∃ c, rhs !! i = Some c ∧ to_bool c = true) →
  (size self + k = N ∨ ∃ c, rhs !! k = Some c ∧ to_bool c = false) →
  size (append_array self rhs) = size self + k.
Proof.
  intros Hwf Hfit Hcopied Hstop.
  destruct (decide (N = 0)) as [->|HN].
  { rewrite !size_value by done. lia. }
  destruct Hchar as (_ & HU & _).
  apply size_unique; [lia|done|lia| |]; storage.
  - intros i Hi. destruct (decide (i < size self)) as [Hlt|Hge].
    + rewrite append_loop_lookup_before by done.
      by apply size_populated.
    + destruct (Hcopied (i - size self)) as (c & Hc & Ht); [lia|].
      rewrite append_loop_lookup_copied;
        [eauto|lia|lia|lia|by eapply lookup_lt_Some].
  - destruct Hstop as [|(c & Hc & Hf)]; [by left|].
    destruct (decide (size self + k = N)) as [|Hne]; [by left|right].
    exists c. split; [|done].
    rewrite append_loop_lookup_copied;
      [|lia|lia|lia|replace (size self + k - size self) with k by lia;
                    by eapply lookup_lt_Some].
    by replace (size self + k - size self) with k by lia.
Qed.

Lemma append_array_truncated self (rhs : list T) :
  well_formed self → N - size self < length rhs →
  _data (append_array self rhs) =
    take (size self) (_data self) ++ take (N - size self) rhs ++
    drop N (_data self) ∧
  length (take (N - size self) rhs) = N - size self.
Proof.
  intros Hwf Hlong. pose proof (size_le self).
  rewrite append_array_layout by done.
  rewrite length_take. split; [|lia].
  do 3 f_equal. lia.
Qed.

Lemma size_append_array_truncated self (rhs : list T) :
  well_formed self → N - size self < length rhs →
  (∀ c, c ∈ take (N - size self) rhs → to_bool c = true) →
  size (append_array self rhs) = N.
Proof.
  intros Hwf Hlong Htrue. pose proof (size_le self).
  rewrite (size_append_array self rhs (N - size self)); [lia|done|lia| |left; lia].
  intros i Hi. destruct (lookup_lt_is_Some_2 rhs i) as [c Hc]; [lia|].
  exists c. split; [done|]. apply Htrue.
  apply list_elem_of_lookup. exists i. by rewrite lookup_take_lt.
Qed.

Lemma append_literal_as_array {M} self (rhs : literal_t T M) :
  append_literal self rhs =
  append_array self (take (size rhs + 1) (_data rhs)).
Proof. reflexivity. Qed.

Lemma populated_true {M} (rhs : literal_t T M) (n : nat) (c : T) :
  c ∈ take n (sv rhs) → to_bool c = true.
Proof.
  unfold sv. intros Hin.
  apply list_elem_of_lookup in Hin as [i Hi].
  apply lookup_take_Some in Hi as [Hi _].
  apply lookup_take_Some in Hi as [Hi Hlt].
  destruct (size_populated rhs i Hlt) as (c' & Hc' & Ht). by simplify_eq.
Qed.

End Append.

(** C3, as the code has it.  Every form of [+=] on a string receiver
    runs one loop over a list of source elements: it copies them to the
    receiver's slots from index size() on and stops when the source is
    consumed or slot N - 1 is written; the storage keeps its N + 1 slots.
    The source elements are, for a raw array, all its elements; for
    another instance, its first size() + 1 elements; for the receiver
    itself, [s += s], its content followed by its first element, which
    the first step has stored over the terminator; elements of another
    character type are converted on assignment.  A source longer than the
    remaining capacity has exactly (capacity - size()) elements copied and
    the rest dropped, and the resulting size() equals the capacity when
    the copied elements, as stored, are all non-zero: this is always so
    for an instance of the receiver's element type with more than
    (capacity - size()) populated elements, the receiver included, the
    copied elements being populated ones. *)
Theorem C3_truncating_append
    {T : Type} `{Element T} (Hchar : character_type T) {N : nat}
    (self : literal_t T N) (Hwf : well_formed self) :
  (∀ rhs : list T, appended self rhs (append_array self rhs)) ∧
  (∀ (U : Type) (conv : U → T) (rhs : list U),
     appended self (conv <$> rhs) (append_array_from conv self rhs)) ∧
  (∀ (M : nat) (rhs : literal_t T M),
     well_formed rhs →
     appended self (take (size rhs + 1) (_data rhs))
       (append_literal self rhs) ∧
     (N - size self < size rhs →
      take (N - size self) (take (size rhs + 1) (_data rhs)) =
        take (N - size self) (sv rhs) ∧
      size (append_literal self rhs) = N)) ∧
  (∀ (U : Type) (HU : Element U) (M : nat) (conv : U → T)
     (rhs : literal_t U M),
     appended self (conv <$> take (size rhs + 1) (_data rhs))
       (append_literal_from conv self rhs)) ∧
  (appended self (sv self ++ take 1 (_data self)) (append_self self) ∧
   (N - size self < size self →
    take (N - size self) (sv self ++ take 1 (_data self)) =
      take (N - size self) (sv self) ∧
    size (append_self self) = N)).
Proof.
  assert (∀ rhs : list T, appended self rhs (append_array self rhs))
    as Hloop.
  { intros rhs. split_and!.
    - unfold well_formed in *. simpl. by rewrite append_loop_length.
    - by apply append_array_layout.
    - intros Hlong.
      destruct (append_array_truncated self rhs Hwf Hlong) as [Hdata Hlen].
      split_and!; [done|done|].
      by apply size_append_array_truncated. }
  assert (∀ (M : nat) (rhs : literal_t T M) (tail : list T),
            well_formed rhs → N - size self < size rhs →
            take (N - size self) (sv rhs ++ tail) =
              take (N - size self) (sv rhs) ∧
            size (append_array self (sv rhs ++ tail)) = N) as Hstring.
  { intros M rhs tail Hrhs Hlong.
    assert (length (sv rhs) = size rhs) as Hlen.
    { unfold sv. rewrite length_take. pose proof (size_le rhs).
      unfold well_formed in Hrhs. lia. }
    assert (take (N - size self) (sv rhs ++ tail) =
            take (N - size self) (sv rhs)) as Hsrc.
    { by rewrite take_app_le by lia. }
    split; [done|].
    apply (size_append_array_truncated Hchar);
      [done|rewrite length_app; lia|].
    rewrite Hsrc. intros c. by apply populated_true. }
  split_and!.
  - done.
  - intros U conv rhs. apply (Hloop (conv <$> rhs)).
  - intros M rhs Hrhs. split; [apply Hloop|].
    intros Hlong. rewrite append_literal_as_array.
    rewrite <- (take_drop (size rhs) (take (size rhs + 1) (_data rhs))).
    rewrite take_take, Nat.min_l by lia.
    by apply Hstring.
  - intros U HU M conv rhs.
    apply (Hloop (conv <$> take (size rhs + 1) (_data rhs))).
  - rewrite append_self_as_array by done. apply Hloop.
  - intros Hlong. rewrite append_self_as_array by done.
    by apply Hstring.
Qed.

(** An instance of C3: ["Test String"] appended to ["array"] in a literal
    of capacity 8 fills it with ["arrayTes"]. *)
Lemma C3_truncating_append_witness :
  let self : literal_t char 8 := from_array 8 (chars "array" ++ [zero]) in
  size (append_literal self fixedString) = 8 ∧
  sv (append_literal self fixedString) = chars "arrayTes".
Proof.
  intros self.
  assert (well_formed self) as Hwf by reflexivity.
  destruct (C3_truncating_append char_character_type self Hwf)
    as (_ & _ & Hliteral & _).
  destruct (Hliteral _ fixedString) as (_ & Hfull); [reflexivity|].
  destruct Hfull as (_ & Hsize); [vm_compute; lia|].
  split; [exact Hsize|reflexivity].
Defined.

(** C3 as stated fails for a raw array with a zero among the copied
    elements: five elements go to the empty receiver ["\0\0\0"] of
    capacity 4, four are copied, and size() of the result is 1, not the
    capacity. *)
Lemma C3_embedded_zero_shortens_the_result :
  let self : literal_t char 4 := emptyString4 in
  let rhs : list char := ["a"; zero; "c"; "d"; "e"]%char in
  LiteralString char 4 = true ∧ well_formed self ∧
  4 - size self < length rhs ∧
  _data (append_array self rhs) = ["a"; zero; "c"; "d"; zero]%char ∧
  size (append_array self rhs) = 1 ∧
  ¬ (∀ (receiver : literal_t char 4) (source : list char),
       well_formed receiver → 4 - size receiver < length source →
       size (append_array receiver source) = 4).
Proof.
  intros self rhs. split_and!; try reflexivity.
  - vm_compute. lia.
  - intros Hall. specialize (Hall self rhs). 
    assert (size (append_array self rhs) = 1) as Hone by reflexivity.
    rewrite Hall in Hone; [discriminate|reflexivity|vm_compute; lia].
Qed.

(** ** Concatenation *)

Section Concat.
Context {N1 N2 : nat}.
Implicit Types (lhs : literal_t char N1) (rhs : literal_t char N2).

Lemma widen_lookup_copied (N : nat) lhs (i : nat) :
  well_formed lhs → i < N1 → N1 < N →
  _data (widen N lhs) !! i = _data lhs !! i.
Proof.
  intros Hwf Hi HN. storage.
  rewrite list_lookup_insert_ne by lia.
  rewrite copy_range_spec by (rewrite ?length_replicate; lia).
  rewrite drop_0, lookup_app_l by (rewrite length_take; lia).
  by apply lookup_take_lt.
Qed.

Lemma size_widen (N : nat) lhs :
  well_formed lhs → N1 < N → size (widen N lhs) = size lhs.
Proof.
  intros Hwf HN. pose proof (size_le lhs) as Hle.
  apply size_unique; [lia|done|lia| |].
  - intros i Hi. rewrite widen_lookup_copied by (done || lia).
    by apply size_populated.
  - destruct (decide (size lhs = N1)) as [Hfull|Hshort].
    + right.
      exists zero. split; [|done]. rewrite Hfull. storage.
      apply list_lookup_insert_eq.
      rewrite copy_range_length, length_replicate. lia.
    + right. rewrite widen_lookup_copied by (done || lia).
      apply size_string_stop; [lia|done|done|lia].
Qed.

Lemma size_concat lhs rhs :
  0 < N2 → well_formed lhs → well_formed rhs → invariant rhs →
  size (concat lhs rhs) = size lhs + size rhs.
Proof.
  intros HN2 Hl Hr [Hle Hzero].
  pose proof (bit_ceil_ge (N1 + N2)) as HR.
  pose proof (size_le lhs) as Hsl.
  unfold concat. rewrite append_literal_as_array.
  rewrite <- (size_widen (Resized (N1 + N2)) lhs) by (done || unfold Resized; lia).
  apply (size_append_array char_character_type).
  - apply widen_valid. unfold Resized. lia.
  - rewrite size_widen by (done || unfold Resized; lia).
    unfold Resized. lia.
  - intros i Hi. rewrite lookup_take_lt by lia. by apply size_populated.
  - right. exists zero. split; [|done]. by rewrite lookup_take_lt by lia.
Qed.

Lemma sv_concat lhs rhs :
  0 < N2 → well_formed lhs → well_formed rhs → invariant rhs →
  sv (concat lhs rhs) = sv lhs ++ sv rhs.
Proof.
  intros HN2 Hl Hr Hinv. unfold sv at 1. rewrite size_concat by done.
  pose proof (bit_ceil_ge (N1 + N2)) as HR.
  pose proof (size_le lhs) as Hsl. pose proof (size_le rhs) as Hsr.
  assert (N1 < Resized (N1 + N2)) as HN by (unfold Resized; lia).
  assert (length (sv lhs) = size lhs) as Hlen.
  { unfold sv. rewrite length_take. unfold well_formed in Hl. lia. }
  unfold concat, append_literal. cbn [_data].
  rewrite size_widen by done.
  apply list_eq. intros i.
  destruct (decide (i < size lhs + size rhs)) as [Hi|Hi].
  - rewrite lookup_take_lt by done.
    destruct (decide (i < size lhs)) as [Hlt|Hge].
    + rewrite append_loop_lookup_before by done.
      rewrite widen_lookup_copied by (done || lia).
      rewrite lookup_app_l by lia. unfold sv. by rewrite lookup_take_lt.
    + rewrite append_loop_lookup_copied.
      * rewrite lookup_app_r by lia. rewrite Hlen. unfold sv.
        by rewrite !lookup_take_lt by lia.
      * lia.
      * unfold Resized. lia.
      * destruct (widen_valid N1 (Resized (N1 + N2)) lhs HN) as [Hw _].
        unfold well_formed in Hw. lia.
      * rewrite length_take. unfold well_formed in Hr. lia.
  - rewrite lookup_take_ge by lia. symmetry. apply lookup_ge_None.
    rewrite length_app, Hlen. unfold sv. rewrite length_take. lia.
Qed.

End Concat.

(** C2, as the code has it: for two strings over [char], of capacities
    N1 > 0 and N2 > 0, whose right operand holds a zero in its slot at
    index size(), the concatenation has the bucketed capacity
    [Resized (N1 + N2)], where the two contents always fit; its content is
    the left content followed by the right one, so that its size() is the
    sum of the two sizes and within the capacity, and it satisfies the
    storage invariant.  The function is total: it returns for every pair
    of operands. *)
Theorem C2_concatenation {N1 N2 : nat}
    (lhs : literal_t char N1) (rhs : literal_t char N2) :
  0 < N1 → 0 < N2 →
  well_formed lhs → well_formed rhs → invariant rhs →
  let result := concat lhs rhs in
  ArraySize result = Resized (N1 + N2) ∧
  well_formed result ∧
  size lhs + size rhs ≤ Resized (N1 + N2) ∧
  size result = size lhs + size rhs ∧
  size result ≤ ArraySize result ∧
  sv result = sv lhs ++ sv rhs ∧
  invariant result.
Proof.
  intros HN1 HN2 Hl Hr Hinv result. subst result.
  pose proof (bit_ceil_ge (N1 + N2)) as HR.
  pose proof (size_le lhs). pose proof (size_le rhs).
  assert (sealed (concat lhs rhs)) as Hsealed.
  { apply append_literal_valid, widen_valid.
    unfold Resized. lia. }
  split_and!.
  - reflexivity.
  - apply Hsealed.
  - unfold Resized. lia.
  - by apply size_concat.
  - apply size_le.
  - by apply sv_concat.
  - by apply (sealed_invariant char_character_type).
Qed.

(** An instance of C2: ["Test String" + "Test String"] has capacity 32
    and size 22. *)
Lemma C2_concatenation_witness :
  ArraySize (concat fixedString fixedString) = 32 ∧
  size (concat fixedString fixedString) = 11 + 11 ∧
  sv (concat fixedString fixedString) = chars "Test StringTest String".
Proof.
  destruct (C2_concatenation fixedString fixedString)
    as (Hcap & _ & _ & Hsize & _ & Hsv & _).
  - vm_compute. lia.
  - vm_compute. lia.
  - reflexivity.
  - reflexivity.
  - split; [vm_compute; lia|reflexivity].
  - split_and!; [exact Hcap|exact Hsize|exact Hsv].
Defined.

(** C2 as stated fails for a right operand without a zero at index
    size(): [filled4] holds five non-zero elements in its five slots and
    has size() 4; the append copies size() + 1 of them, and ["xy"]
    concatenated with it has size() 7, not 2 + 4. *)
Lemma C2_unterminated_right_operand :
  let lhs : literal_t char (Resized 3) :=
    from_array (Resized 3) (chars "xy" ++ [zero]) in
  let rhs : literal_t char 4 := filled4 in
  LiteralString char (Resized 3) = true ∧ LiteralString char 4 = true ∧
  well_formed lhs ∧ well_formed rhs ∧
  size lhs = 2 ∧ size rhs = 4 ∧
  ArraySize (concat lhs rhs) = 8 ∧
  sv (concat lhs rhs) = chars "xyabcde" ∧
  size (concat lhs rhs) = 7 ∧
  size (concat lhs rhs) ≠ size lhs + size rhs.
Proof.
  intros lhs rhs. split_and!; try reflexivity.
  vm_compute. lia.
Qed.

(** ** Substring extraction *)

Section Substr.
Context {T : Type} `{Element T} {N : nat}.
Hypothesis Hchar : character_type T.
Implicit Types self : literal_t T N.

Lemma scan_zero_first (n : nat) (l : list T) : scan n (zero :: l) = 0.
Proof. destruct n; simpl; [done|]. by rewrite (to_bool_zero Hchar). Qed.

Lemma size_literal_default : size (literal_default (T:=T) N) = 0.
Proof.
  unfold size. destruct (_ && _); [|done].
  storage. rewrite replicate_S. apply scan_zero_first.
Qed.

Lemma empty_literal_default : empty (literal_default (T:=T) N) = true.
Proof.
  unfold empty. destruct (_ && _); [|done].
  unfold slot. storage. rewrite replicate_S. simpl.
  rewrite (to_bool_zero Hchar). apply orb_true_r.
Qed.

Lemma substr_past_the_end self (pos count : size_t) :
  (N.of_nat (size self) ≤ pos)%N →
  substr self pos count = literal_default N.
Proof.
  intros Hpos. unfold substr.
  apply N.leb_le in Hpos. by rewrite Hpos.
Qed.

(** Inside the populated range the result holds the [k] requested
    elements, where [k] is [count] clamped to what is left after [pos],
    and then a zero. *)
Lemma substr_in_range self (pos count : size_t) :
  (pos < N.of_nat (size self))%N →
  substr self pos count =
    let p := N.to_nat pos in
    let k := N.to_nat count `min` (size self - p) in
    mk_literal (<[k := zero]> (copy_range p k (_data self)
                                 (replicate (S N) zero))).
Proof.
  intros Hpos. unfold substr.
  apply N.leb_gt in Hpos. rewrite Hpos. cbn zeta.
  destruct (N.ltb_spec (N.of_nat (size self - N.to_nat pos)) count);
    storage; do 3 f_equal; lia.
Qed.

Lemma substr_lookup self (pos count : size_t) (i : nat) :
  well_formed self → (pos < N.of_nat (size self))%N →
  i < N.to_nat count `min` (size self - N.to_nat pos) →
  _data (substr self pos count) !! i = _data self !! (N.to_nat pos + i).
Proof.
  intros Hwf Hpos Hi. rewrite substr_in_range by done. cbn [_data].
  pose proof (size_le self). unfold well_formed in Hwf.
  rewrite list_lookup_insert_ne by lia.
  rewrite copy_range_spec by (rewrite ?length_replicate; lia).
  rewrite lookup_app_l by (rewrite length_take, length_drop; lia).
  by rewrite lookup_take_lt, lookup_drop by lia.
Qed.

Lemma size_substr self (pos count : size_t) :
  well_formed self → (pos < N.of_nat (size self))%N →
  size (substr self pos count) =
    N.to_nat count `min` (size self - N.to_nat pos).
Proof.
  intros Hwf Hpos. pose proof (size_le self).
  assert (0 < N) by lia.
  destruct Hchar as (_ & HU & _).
  apply size_unique; [done|done|lia| |].
  - intros i Hi. rewrite substr_lookup by done.
    apply size_populated. lia.
  - set (k := _ `min` _).
    destruct (decide (k = N)) as [|Hne]; [by left|right].
    exists zero. split; [|apply (to_bool_zero Hchar)].
    rewrite substr_in_range by done. cbn [_data]. fold k.
    apply list_lookup_insert_eq.
    rewrite copy_range_length, length_replicate. lia.
Qed.

Lemma sv_substr self (pos count : size_t) :
  well_formed self → (pos < N.of_nat (size self))%N →
  sv (substr self pos count) =
    take (N.to_nat count) (drop (N.to_nat pos) (sv self)).
Proof.
  intros Hwf Hpos. unfold sv at 1. rewrite size_substr by done.
  pose proof (size_le self). unfold well_formed in Hwf.
  apply list_eq. intros i. unfold sv.
  set (k := _ `min` _).
  destruct (decide (i < k)) as [Hi|Hi].
  - rewrite lookup_take_lt by done. rewrite substr_lookup by done.
    by rewrite lookup_take_lt, lookup_drop, lookup_take_lt by lia.
  - rewrite lookup_take_ge by lia. symmetry. apply lookup_ge_None.
    rewrite length_take, length_drop, length_take. lia.
Qed.

End Substr.

(** C10: a position at or past size() makes substr return a
    default-constructed literal of the same capacity, empty and with every
    slot zero, whatever the count; on an empty string this is so for every
    position and count. *)
Theorem C10_substr_past_the_end
    {T : Type} `{Element T} (Hchar : character_type T) {N : nat}
    (self : literal_t T N) :
  (∀ pos count : size_t,
     (N.of_nat (size self) ≤ pos)%N →
     let r := substr self pos count in
     r = literal_default N ∧ size r = 0 ∧ empty r = true ∧
     _data r = replicate (S N) zero ∧
     ∀ i, i ≤ N → _data r !! i = Some zero) ∧
  (size self = 0 →
   ∀ pos count : size_t,
     substr self pos count = literal_default N ∧
     size (substr self pos count) = 0).
Proof.
  assert (∀ pos count : size_t,
            (N.of_nat (size self) ≤ pos)%N →
            substr self pos count = literal_default N) as Hdefault.
  { intros. by apply substr_past_the_end. }
  split.
  - intros pos count Hpos r. subst r. rewrite Hdefault by done.
    split_and!; [done|by apply size_literal_default
                |by apply empty_literal_default|done|].
    intros i Hi. storage. apply lookup_replicate_2. lia.
  - intros Hempty pos count. rewrite Hdefault by lia.
    split; [done|by apply size_literal_default].
Qed.

(** An instance of C10: ["Test String".substr(11, 3)] is the default
    literal of capacity 16. *)
Lemma C10_substr_past_the_end_witness :
  substr fixedString 11 3 = literal_default 16 ∧
  size (substr fixedString 11 3) = 0 ∧
  substr emptyString4 2 npos = literal_default 4.
Proof.
  destruct (C10_substr_past_the_end char_character_type fixedString)
    as [Hpast _].
  destruct (Hpast 11%N 3%N) as (Hr & Hsize & _); [vm_compute; discriminate|].
  destruct (C10_substr_past_the_end char_character_type emptyString4)
    as [_ Hempty].
  destruct (Hempty eq_refl 2%N npos) as [He _].
  split_and!; [exact Hr|exact Hsize|exact He].
Defined.

(** ** Indexed access *)

Section Subscript.
Context {T : Type} `{Element T} {N : nat}.
Implicit Types self : literal_t T N.

Lemma subscript_populated (safe : bool) self (i : nat) :
  i < size self →
  ∃ c, _data self !! i = Some c ∧ to_bool c = true ∧
       subscript safe self i = Return c.
Proof.
  intros Hi. pose proof (size_le self).
  destruct (size_populated self i Hi) as (c & Hc & Ht).
  exists c. split_and!; [done..|].
  unfold subscript.
  assert ((0 <? N) = true) as -> by (apply Nat.ltb_lt; lia).
  assert ((size self <=? i) = false) as -> by (apply Nat.leb_gt; lia).
  by rewrite andb_false_r, Hc.
Qed.

Lemma subscript_safe_throws self (n : nat) :
  0 < N → size self ≤ n →
  subscript true self n =
    Throw (range_error "subscript index outside literal_t limits").
Proof.
  intros HN Hn. unfold subscript.
  apply Nat.ltb_lt in HN. apply Nat.leb_le in Hn. by rewrite HN, Hn.
Qed.

Lemma subscript_unsafe_returns self (n : nat) :
  0 < N → well_formed self → n ≤ N →
  ∃ c, _data self !! n = Some c ∧ subscript false self n = Return c.
Proof.
  intros HN Hwf Hn. unfold subscript.
  apply Nat.ltb_lt in HN. rewrite HN. simpl.
  destruct (lookup_lt_is_Some_2 (_data self) n) as [c Hc].
  { unfold well_formed in Hwf. lia. }
  exists c. by rewrite Hc.
Qed.

Lemma subscript_unsafe_never_throws self (n : nat) (e : exception) :
  subscript false self n ≠ Throw e.
Proof.
  unfold subscript. destruct (0 <? N); [|done]. simpl.
  by destruct (_data self !! n).
Qed.

End Subscript.

(** C8: in safe mode an access to a string at an index at or past size(),
    in particular at size() itself, throws [range_error] and leaves the
    receiver as it was, so that later accesses behave as before; an access
    below size() returns that element and does not throw.  Without safe
    mode there is no check: the access returns the slot, also at size(),
    and never throws. *)
Theorem C8_indexed_access {T : Type} `{Element T} {N : nat}
    (self : literal_t T N) :
  0 < N → well_formed self →
  let OutOfRange := range_error "subscript index outside literal_t limits" in
  (∀ n, size self ≤ n →
     subscript true self n = Throw OutOfRange ∧
     index_read true n self = (Throw OutOfRange, self) ∧
     (∀ c, index_write true n c self = (Throw OutOfRange, self)) ∧
     ∀ i, i < size self →
       ∃ c, _data self !! i = Some c ∧
            index_read true i (snd (index_read true n self)) = (Return c, self)) ∧
  subscript true self (size self) = Throw OutOfRange ∧
  (∀ n, n < size self →
     ∃ c, _data self !! n = Some c ∧ subscript true self n = Return c ∧
          index_read true n self = (Return c, self)) ∧
  (∀ n, n ≤ N →
     ∃ c, _data self !! n = Some c ∧ subscript false self n = Return c) ∧
  (∃ c, _data self !! size self = Some c ∧
        subscript false self (size self) = Return c) ∧
  (∀ n e, subscript false self n ≠ Throw e).
Proof.
  intros HN Hwf OutOfRange. split_and!.
  - intros n Hn.
    pose proof (subscript_safe_throws self n HN Hn) as Hthrow.
    unfold index_read, index_write. rewrite Hthrow.
    split_and!; try done.
    intros i Hi. cbn [snd].
    destruct (subscript_populated true self i Hi) as (c & Hc & _ & Hret).
    exists c. by rewrite Hret.
  - by apply subscript_safe_throws.
  - intros n Hn.
    destruct (subscript_populated true self n Hn) as (c & Hc & _ & Hret).
    exists c. unfold index_read. by rewrite Hret.
  - intros n Hn. by apply subscript_unsafe_returns.
  - apply subscript_unsafe_returns; [done..|apply size_le].
  - intros n e. apply subscript_unsafe_never_throws.
Qed.

(** An instance of C8 on ["Test String"], whose size() is 11. *)
Lemma C8_indexed_access_witness :
  subscript true fixedString 11 =
    Throw (range_error "subscript index outside literal_t limits") ∧
  subscript true fixedString 10 = Return "g"%char ∧
  subscript false fixedString 11 = Return zero.
Proof.
  destruct (C8_indexed_access fixedString) as (_ & Hthrow & _);
    [vm_compute; lia|reflexivity|].
  split_and!; [exact Hthrow|reflexivity|reflexivity].
Defined.

(** ** Equality *)

Lemma LiteralString_true {T : Type} `{Element T} (N : nat) :
  character_type T → 0 < N → LiteralString T N = true.
Proof.
  intros (HC & _ & _) HN. unfold LiteralString.
  apply Nat.ltb_lt in HN. by rewrite HN, HC.
Qed.

Lemma LiteralValue_inv {T : Type} `{Element T} (N : nat) :
  LiteralValue T N = true → N = 0 ∧ @Undefined T _ = false.
Proof.
  unfold LiteralValue. intros [HN HU]%andb_true_iff.
  apply Nat.eqb_eq in HN. by apply negb_true_iff in HU.
Qed.

Section EqualLoop.
Context {T U : Type} `{Element T} `{Element U} {N M : nat}.
Variable safe : bool.

(** The loop answers [true] when the two operands yield, at every index
    it visits, elements that do not compare unequal. *)
Lemma equal_loop_true (ne : T → U → bool) (lhs : literal_t T N)
    (rhs : literal_t U M) : ∀ count i,
  (∀ j, i ≤ j → j < i + count →
     ∃ x y, subscript safe lhs j = Return x ∧
            subscript safe rhs j = Return y ∧ ne x y = false) →
  equal_loop safe ne lhs rhs count i = Return true.
Proof.
  induction count as [|k IH]; intros i Hsame; simpl; [done|].
  destruct (Hsame i) as (x & y & -> & -> & Hne); [lia..|]. simpl.
  rewrite Hne. apply IH. intros j Hj1 Hj2. apply Hsame; lia.
Qed.

End EqualLoop.

(** C9: a string equals its own substring over the full populated range,
    in either build mode, for the reflexive [==] of its character type. *)
Theorem C9_substr_round_trip
    {T : Type} `{Element T} (Hchar : character_type T) {N : nat}
    (safe : bool) (eq : T → T → bool) (s : literal_t T N) :
  0 < N → well_formed s → (∀ c, eq c c = true) →
  LiteralString T N = true ∧
  operator_eq safe (Some eq) s (substr s 0 (N.of_nat (size s))) = Return true.
Proof.
  intros HN Hwf Hrefl.
  pose proof (LiteralString_true N Hchar HN) as Hstr.
  split; [done|].
  unfold operator_eq. rewrite Hstr. simpl.
  assert (size (substr s 0 (N.of_nat (size s))) = size s) as Hsize.
  { destruct (decide (size s = 0)) as [Hz|Hnz].
    - rewrite substr_past_the_end by lia.
      rewrite Hz. by apply size_literal_default.
    - rewrite size_substr by (done || lia). lia. }
  rewrite Hsize, Nat.eqb_refl. simpl.
  apply equal_loop_true. intros j _ Hj. simpl in Hj.
  destruct (subscript_populated safe s j Hj) as (c & Hc & _ & Hl).
  assert (j < size (substr s 0 (N.of_nat (size s)))) as Hj' by lia.
  destruct (subscript_populated safe _ j Hj') as (c' & Hc' & _ & Hr).
  rewrite substr_lookup in Hc' by (done || lia).
  simpl in Hc'. simplify_eq.
  exists c, c. by rewrite Hl, Hr, Hrefl.
Qed.

(** An instance of C9 on ["Test String"] in safe mode. *)
Lemma C9_substr_round_trip_witness :
  operator_eq true (Some (λ x y : char, bool_decide (x = y))) fixedString
    (substr fixedString 0 (N.of_nat (size fixedString))) = Return true.
Proof.
  apply (C9_substr_round_trip char_character_type true
           (λ x y : char, bool_decide (x = y)) fixedString).
  - vm_compute. lia.
  - reflexivity.
  - intros c. by apply bool_decide_eq_true.
Defined.

(** C4: the default-constructed literal is of the Undefined category.  It
    equals every empty string of every character type and differs from
    every non-empty string and from every value, on either side of [==].
    Two undefined literals are always equal, and a value never equals an
    undefined literal. *)
Theorem C4_undefined_equality (safe : bool) :
  LiteralUndefined Unsupported 0 = true ∧
  LiteralString Unsupported 0 = false ∧ LiteralValue Unsupported 0 = false ∧
  (∀ (T : Type) (ET : Element T) (N : nat) (s : literal_t T N)
     (eq1 : option (Unsupported → T → bool))
     (eq2 : option (T → Unsupported → bool)),
     character_type T → 0 < N → well_formed s →
     (size s = 0 →
      operator_eq safe eq1 emptyUndefined s = Return true ∧
      operator_eq safe eq2 s emptyUndefined = Return true) ∧
     (0 < size s →
      operator_eq safe eq1 emptyUndefined s = Return false ∧
      operator_eq safe eq2 s emptyUndefined = Return false)) ∧
  (∀ (U : Type) (EU : Element U) (v : literal_t U 0)
     (eq1 : option (Unsupported → U → bool))
     (eq2 : option (U → Unsupported → bool)),
     LiteralValue U 0 = true →
     operator_eq safe eq1 emptyUndefined v = Return false ∧
     operator_eq safe eq2 v emptyUndefined = Return false) ∧
  (∀ (N1 N2 : nat) (u1 : literal_t Unsupported N1)
     (u2 : literal_t Unsupported N2)
     (eq : option (Unsupported → Unsupported → bool)),
     operator_eq safe eq u1 u2 = Return true) ∧
  (∀ (U : Type) (EU : Element U) (M : nat) (v : literal_t U 0)
     (u : literal_t Unsupported M) (eq : option (U → Unsupported → bool)),
     LiteralValue U 0 = true →
     operator_eq safe eq v u = Return false).
Proof.
  split_and!; try reflexivity.
  - intros T ET N s eq1 eq2 Hchar HN Hwf.
    pose proof (LiteralString_true N Hchar HN) as Hstr.
    destruct Hchar as (_ & HU & _).
    pose proof (empty_size s HN HU Hwf) as Hempty.
    unfold operator_eq. rewrite Hstr. simpl.
    split; intros Hsize.
    + apply Hempty in Hsize. by rewrite Hsize.
    + destruct (empty s) eqn:He; [|done].
      destruct Hempty as [Hz _]. specialize (Hz eq_refl). lia.
  - intros U EU v eq1 eq2 [_ HU]%LiteralValue_inv.
    unfold operator_eq, equality_comparable_with, LiteralString,
      LiteralUndefined.
    simpl. by rewrite HU, ?orb_true_r.
  - intros N1 N2 u1 u2 eq.
    unfold operator_eq, LiteralString. simpl.
    by rewrite !andb_false_r.
  - intros U EU M v u eq [_ HU]%LiteralValue_inv.
    unfold operator_eq, equality_comparable_with, LiteralString,
      LiteralUndefined.
    simpl. by rewrite HU, ?andb_false_r, ?orb_true_r.
Qed.

(** The scenarios of the test suite, as instances of C4. *)
Lemma C4_undefined_equality_witness :
  operator_eq true None emptyUndefined emptyUndefined = Return true ∧
  operator_eq true None emptyUndefined emptyString4 = Return true ∧
  operator_eq true None fixedString emptyUndefined = Return false ∧
  operator_eq true None (from_value 0 5%Z) emptyUndefined = Return false.
Proof.
  destruct (C4_undefined_equality true)
    as (_ & _ & _ & Hstring & _ & Hundefined & Hvalue).
  destruct (Hstring char _ 4 emptyString4 None None)
    as [Hempty _]; [exact char_character_type|lia|reflexivity|].
  destruct (Hstring char _ 16 fixedString None None)
    as [_ Hfull]; [exact char_character_type|lia|reflexivity|].
  split_and!.
  - apply Hundefined.
  - apply Hempty. reflexivity.
  - apply Hfull. vm_compute. lia.
  - apply Hvalue. reflexivity.
Defined.

(** C5: a string [s] equals a value [v] of a comparable element type
    exactly when both are empty or [s] holds a single element that equals
    the one stored in [v]; with element types that are not comparable the
    answer is [false].  A value is empty by convention, so that the first
    case is the one of an empty [s]. *)
Theorem C5_string_value_equality
    {T U : Type} `{Element T} `{Element U} (Hchar : character_type T)
    {N : nat} (safe : bool) (s : literal_t T N) (v : literal_t U 0) :
  0 < N → well_formed s → LiteralValue U 0 = true →
  (∀ eq : T → U → bool,
     ∃ b : bool,
       operator_eq safe (Some eq) s v = Return b ∧
       (b = true ↔
        (empty s = true ∧ empty v = true) ∨
        (∃ c, sv s = [c] ∧ eq c (slot v 0) = true))) ∧
  operator_eq safe None s v = Return false ∧
  (empty s = true ↔ size s = 0) ∧ empty v = true ∧ size v = 0.
Proof.
  intros HN Hwf [_ HUv]%LiteralValue_inv.
  pose proof (LiteralString_true N Hchar HN) as Hstr.
  destruct Hchar as (_ & HU & _).
  pose proof (empty_size s HN HU Hwf) as Hempty.
  assert (empty v = true) as Hv by reflexivity.
  split_and!; [|  |done..].
  - intros eq.
    unfold operator_eq, equality_comparable_with, LiteralUndefined.
    rewrite Hstr, HU, HUv, Hv. simpl. rewrite andb_true_r.
    destruct (empty s) eqn:He.
    { exists true. split; [done|]. split; [by left|done]. }
    destruct (size s =? 1) eqn:Hone.
    + apply Nat.eqb_eq in Hone.
      destruct (subscript_populated safe s 0) as (c & Hc & _ & ->); [lia|].
      simpl. exists (eq c (slot v 0)). split; [done|].
      assert (sv s = [c]) as Hsv.
      { unfold sv. rewrite Hone. by erewrite take_S_r, take_0. }
      split.
      * intros Heq. right. eauto.
      * intros [[? _]|(c' & Hc' & Heq)]; [done|].
        rewrite Hsv in Hc'. by simplify_eq.
    + exists false. split; [done|]. split; [done|].
      intros [[? _]|(c & Hc & _)]; [done|].
      apply (f_equal length) in Hc. unfold sv in Hc.
      rewrite length_take in Hc. simpl in Hc.
      apply Nat.eqb_neq in Hone.
      pose proof (size_le s). unfold well_formed in Hwf. lia.
  - unfold operator_eq, equality_comparable_with, LiteralUndefined.
    rewrite Hstr, HU, HUv. by simpl.
Qed.

(** An instance of C5: the string ["a"] against the values ['a'] and
    ['b'], and the empty string against ['a']. *)
Lemma C5_string_value_equality_witness :
  let eq := λ x y : char, bool_decide (x = y) in
  let a : literal_t char 2 := from_array 2 (chars "a" ++ [zero]) in
  (∃ b, operator_eq true (Some eq) a (from_value 0 "a"%char) = Return b ∧
        b = true) ∧
  operator_eq true None a (from_value 0 "a"%char) = Return false.
Proof.
  intros eq a.
  destruct (C5_string_value_equality char_character_type true a
              (from_value 0 "a"%char)) as (Hcmp & Hnone & _).
  - lia.
  - reflexivity.
  - reflexivity.
  - split; [|exact Hnone].
    destruct (Hcmp eq) as (b & Hb & Hiff).
    exists b. split; [exact Hb|].
    apply Hiff. right. exists "a"%char. split; reflexivity.
Defined.

(** ** Searching with a larger operand *)

Lemma has_single_bit_pow2 (N : nat) :
  has_single_bit N = true → 0 < N ∧ N = 2 ^ Nat.log2 N.
Proof.
  unfold has_single_bit. intros [Hpos Hpow]%andb_true_iff.
  apply Nat.ltb_lt in Hpos. by apply Nat.eqb_eq in Hpow.
Qed.

(** For a receiver capacity that is a power of two, an operand type
    [Resized<M>] has the larger capacity exactly when [M > N], the
    condition the overloads test. *)
Lemma larger_capacity_iff (N M : nat) :
  has_single_bit N = true → N < Resized M ↔ N < M.
Proof.
  intros [_ Hpow]%has_single_bit_pow2. unfold Resized. split.
  - intros Hlt. destruct (decide (N < M)) as [|Hge]; [done|].
    assert (bit_ceil M ≤ 2 ^ Nat.log2 N) by (apply bit_ceil_least; lia).
    lia.
  - pose proof (bit_ceil_ge M). lia.
Qed.

(** The overloads that take a literal [Resized<M>] are reached by naming
    [M], as in [a.find<M>(b)]: each of the six searches then answers
    [npos] for an operand whose capacity [Resized M] exceeds the
    receiver's, whatever the two contents and the position are. *)
Lemma explicit_search_with_larger_operand
    {T : Type} `{Element T} `{EqDecision T} {N : nat} (M : nat)
    (self : literal_t T N) (str : literal_t T (Resized M)) (pos : size_t) :
  has_single_bit N = true → N < Resized M →
  find M self str pos = npos ∧
  rfind M self str pos = npos ∧
  find_first_of M self str pos = npos ∧
  find_last_of M self str pos = npos ∧
  find_first_not_of M self str pos = npos ∧
  find_last_not_of M self str pos = npos.
Proof.
  intros Hcap Hlarger. apply (larger_capacity_iff N M Hcap) in Hlarger.
  apply Nat.ltb_lt in Hlarger.
  unfold find, rfind, find_first_of, find_last_of, find_first_not_of,
    find_last_not_of.
  by rewrite Hlarger.
Qed.

(** C6, on the code: an ordinary call [a.find(b)] or [a.rfind(b)] with an
    operand [b] of a larger capacity does not answer [npos] regardless of
    the contents.  The call is resolved to the overload that takes a
    view, and it finds the content of [b] at index 0 whenever the content
    of the receiver begins with it. *)
Theorem C6_ordinary_call_searches
    {T : Type} `{Element T} `{EqDecision T} {N K : nat}
    (self : literal_t T N) (str : literal_t T K) :
  N < K → sv str `prefix_of` sv self →
  find_call self str 0 = 0%N ∧
  rfind_call self str 0 = 0%N ∧
  find_call self str 0 ≠ npos ∧
  rfind_call self str 0 ≠ npos.
Proof.
  intros _ [rest Hrest].
  assert (string_view.matches_at (sv self) (sv str) 0 = true) as Hat.
  { unfold string_view.matches_at. apply bool_decide_eq_true.
    by rewrite drop_0, Hrest, take_app_length. }
  assert (find_call self str 0 = 0%N) as Hfind.
  { unfold find_call, string_view.find.
    destruct (N.ltb_spec (N.of_nat (length (sv self))) 0) as [|_]; [lia|].
    replace (S (length (sv self)) - length (sv str) - N.to_nat 0)
      with (S (length rest)) by (rewrite Hrest, length_app; lia).
    change (N.to_nat 0) with 0. cbn [string_view.lowest]. by rewrite Hat. }
  assert (rfind_call self str 0 = 0%N) as Hrfind.
  { unfold rfind_call, string_view.rfind.
    destruct (Nat.ltb_spec (length (sv self)) (length (sv str))) as [Hlt|_].
    { rewrite Hrest, length_app in Hlt. lia. }
    rewrite N.min_l by lia. change (N.to_nat 0) with 0.
    cbn [string_view.highest]. by rewrite Hat. }
  rewrite Hfind, Hrfind. done.
Qed.

(** The failing input of C6: ["abc"] in capacity 4 searched, by ordinary
    calls, for ["a"] held in a literal of capacity 8.  None of the six
    searches answers [npos]; the overload named with [M = 8] does. *)
Lemma C6_ordinary_call_witness :
  let a : literal_t char (Resized 4) :=
    from_array (Resized 4) (chars "abc" ++ [zero]) in
  let b : literal_t char (Resized 6) := padded8 in
  ArraySize a = 4 ∧ ArraySize b = 8 ∧
  find_call a b 0 = 0%N ∧
  rfind_call a b 0 = 0%N ∧
  rfind_call a b npos = 0%N ∧
  find_first_of_call a b 0 = 0%N ∧
  find_last_of_call a b npos = 0%N ∧
  find_first_not_of_call a b 0 = 1%N ∧
  find_last_not_of_call a b npos = 2%N ∧
  find 8 a b 0 = npos.
Proof.
  intros a b.
  destruct (C6_ordinary_call_searches a b) as (Hfind & Hrfind & _).
  - vm_compute. lia.
  - exists (chars "bc"). reflexivity.
  - split_and!; [reflexivity|reflexivity|exact Hfind|exact Hrfind|
                 reflexivity..].
Defined.

(** An instance of C1: 8 is the bucket of a source of length 5. *)
Lemma C1_Resized_witness : Resized 5 ≤ 2 ^ 3 ∧ 5 ≤ Resized 5.
Proof.
  destruct C1_Resized_smallest_power_of_two as [Hall _].
  destruct (Hall 5) as (_ & Hge & Hleast).
  split; [apply Hleast; simpl; lia|exact Hge].
Defined.

(** * Further properties of the code *)

(** ** The populated content *)

Section Content.
Context {T : Type} `{Element T} {N : nat}.
Implicit Types self : literal_t T N.

Lemma length_sv self : well_formed self → length (sv self) = size self.
Proof.
  intros Hwf. unfold sv. rewrite length_take.
  pose proof (size_le self). unfold well_formed in Hwf. lia.
Qed.

Lemma sv_lookup self (i : nat) :
  i < size self → sv self !! i = _data self !! i.
Proof. intros Hi. unfold sv. by apply lookup_take_lt. Qed.

Lemma sv_populated self : Forall (λ c, to_bool c = true) (sv self).
Proof.
  apply Forall_forall. intros c Hc.
  apply (populated_true self (size self)). unfold sv in *.
  by rewrite take_take, Nat.min_id.
Qed.

(** The storage decides the view: a prefix of non-zero elements that
    fills the capacity or is followed by a zero is the content. *)
Lemma sv_from_prefix self (content : list T) :
  0 < N → @Undefined T _ = false → to_bool (zero : T) = false →
  Forall (λ c, to_bool c = true) content →
  content `prefix_of` _data self → length content ≤ N →
  length content = N ∨ _data self !! length content = Some zero →
  size self = length content ∧ sv self = content.
Proof.
  intros HN HU Hzero Htrue [rest Hdata] Hlen Hstop.
  assert (size self = length content) as Hsize.
  { apply size_unique; [done..| |].
    - intros i Hi. rewrite Hdata, lookup_app_l by done.
      destruct (lookup_lt_is_Some_2 content i Hi) as [c Hc].
      exists c. split; [done|].
      by eapply (proj1 (Forall_lookup _ _) Htrue).
    - destruct Hstop as [|Hz]; [by left|right]. eauto. }
  split; [done|].
  unfold sv. rewrite Hsize, Hdata. by rewrite take_app_length.
Qed.

End Content.

(** ** Equality of strings is equality of contents *)

Section StringEquality.
Context {T : Type} `{Element T} `{EqDecision T} {N M : nat}.
Variable safe : bool.
Implicit Types (a : literal_t T N) (b : literal_t T M).

Lemma take_drop_cons (l : list T) (i k : nat) (x : T) :
  l !! i = Some x → take (S k) (drop i l) = x :: take k (drop (S i) l).
Proof. intros Hx. by rewrite (drop_S l x i Hx). Qed.

Lemma equal_loop_content (eq : T → T → bool) a b :
  (∀ x y, eq x y = true ↔ x = y) →
  ∀ count i,
    i + count ≤ size a → i + count ≤ size b →
    equal_loop safe (λ x y, negb (eq x y)) a b count i =
      Return (bool_decide (take count (drop i (sv a)) =
                           take count (drop i (sv b)))).
Proof.
  intros Heq. induction count as [|k IH]; intros i Ha Hb; cbn [equal_loop].
  { by rewrite !take_0, bool_decide_eq_true_2. }
  destruct (subscript_populated safe a i) as (x & Hx & _ & ->); [lia|].
  destruct (subscript_populated safe b i) as (y & Hy & _ & ->); [lia|].
  simpl.
  rewrite <- (sv_lookup a i) in Hx by lia.
  rewrite <- (sv_lookup b i) in Hy by lia.
  rewrite (take_drop_cons _ i k x Hx), (take_drop_cons _ i k y Hy).
  destruct (eq x y) eqn:Hxy; simpl.
  - apply Heq in Hxy as ->. rewrite IH by lia.
    f_equal. apply bool_decide_ext. split; [by intros ->|by intros [=]].
  - f_equal. symmetry. apply bool_decide_eq_false_2.
    intros [= Hxy' _]. apply Heq in Hxy'. congruence.
Qed.

Lemma string_equality (eq : T → T → bool) a b :
  LiteralString T N = true → LiteralString T M = true →
  well_formed a → well_formed b →
  (∀ x y, eq x y = true ↔ x = y) →
  operator_eq safe (Some eq) a b = Return (bool_decide (sv a = sv b)).
Proof.
  intros Ha Hb Hwa Hwb Heq. unfold operator_eq. rewrite Ha, Hb. simpl.
  destruct (size a =? size b) eqn:Hsize; simpl.
  - apply Nat.eqb_eq in Hsize.
    rewrite equal_loop_content by (done || lia).
    rewrite !drop_0.
    rewrite (take_ge (sv a)), (take_ge (sv b))
      by (rewrite length_sv by done; lia).
    done.
  - apply Nat.eqb_neq in Hsize. f_equal. symmetry.
    apply bool_decide_eq_false_2. intros Hsv.
    apply (f_equal length) in Hsv. rewrite !length_sv in Hsv by done. lia.
Qed.

End StringEquality.

(** X4: two strings of one character type, of whatever capacities,
    compare equal exactly when their populated contents are the same
    list, in either build mode; the comparison never throws. *)
Theorem X4_string_equality_is_content_equality
    {T : Type} `{Element T} `{EqDecision T} (Hchar : character_type T)
    {N M : nat}
    (safe : bool) (eq : T → T → bool)
    (a : literal_t T N) (b : literal_t T M) :
  0 < N → 0 < M → well_formed a → well_formed b →
  (∀ x y, eq x y = true ↔ x = y) →
  operator_eq safe (Some eq) a b = Return (bool_decide (sv a = sv b)) ∧
  (operator_eq safe (Some eq) a b = Return true ↔ sv a = sv b).
Proof.
  intros HN HM Hwa Hwb Heq.
  rewrite string_equality;
    [|by apply LiteralString_true..|done|done|done].
  split; [done|]. split.
  - intros [= Hb]. by apply bool_decide_eq_true in Hb.
  - intros Hsv. by rewrite bool_decide_eq_true_2.
Qed.

(** An instance of X4: ["Test String"] in capacity 16 against the same
    text in capacity 32, and against ["Test"]. *)
Lemma X4_string_equality_witness :
  let eq := λ x y : char, bool_decide (x = y) in
  let wide : literal_t char 32 :=
    from_array 32 (chars "Test String" ++ [zero]) in
  let short : literal_t char 4 := from_array 4 (chars "Test") in
  operator_eq true (Some eq) fixedString wide = Return true ∧
  operator_eq true (Some eq) fixedString short = Return false.
Proof.
  intros eq wide short.
  assert (∀ x y : char, eq x y = true ↔ x = y) as Heq.
  { intros x y. apply bool_decide_eq_true. }
  destruct (X4_string_equality_is_content_equality char_character_type
              true eq fixedString wide) as [Hwide _];
    [vm_compute; lia|lia|reflexivity|reflexivity|exact Heq|].
  destruct (X4_string_equality_is_content_equality char_character_type
              true eq fixedString short) as [Hshort _];
    [vm_compute; lia|lia|reflexivity|reflexivity|exact Heq|].
  split; [exact Hwide|exact Hshort].
Defined.

(** ** Substring extraction, for every position and count *)

Section SubstrContent.
Context {T : Type} `{Element T} {N : nat}.
Hypothesis Hchar : character_type T.
Implicit Types self : literal_t T N.

Lemma sv_literal_default : sv (literal_default (T:=T) N) = [].
Proof. unfold sv. by rewrite (size_literal_default Hchar). Qed.

Lemma sv_substr_total self (pos count : size_t) :
  well_formed self →
  sv (substr self pos count) =
    take (N.to_nat count) (drop (N.to_nat pos) (sv self)).
Proof.
  intros Hwf.
  destruct (decide (pos < N.of_nat (size self))%N) as [Hin|Hout].
  - by apply sv_substr.
  - rewrite substr_past_the_end by lia. rewrite sv_literal_default.
    rewrite drop_ge by (rewrite length_sv by done; lia).
    by rewrite take_nil.
Qed.

Lemma size_substr_clamp self (pos count : size_t) :
  well_formed self →
  N.of_nat (size (substr self pos count)) =
    clamp pos count (N.of_nat (size self)).
Proof.
  intros Hwf. unfold clamp.
  destruct (N.leb_spec (N.of_nat (size self)) pos) as [Hout|Hin].
  - rewrite substr_past_the_end by done.
    by rewrite (size_literal_default Hchar).
  - rewrite size_substr by done.
    destruct (N.ltb_spec count (N.of_nat (size self) - pos)); lia.
Qed.

End SubstrContent.

(** X1: the compile-time helper [clamp] is the count cut down to what is
    left after the position, 0 from the size on; the size() of every
    substring is the [clamp] of its arguments against the size() of the
    receiver. *)
Theorem X1_substr_size_is_clamp
    {T : Type} `{Element T} (Hchar : character_type T) {N : nat}
    (self : literal_t T N) (pos count : size_t) :
  well_formed self →
  clamp pos count (N.of_nat (size self)) =
    N.min count (N.of_nat (size self) - pos) ∧
  N.of_nat (size (substr self pos count)) =
    clamp pos count (N.of_nat (size self)) ∧
  size (substr self pos count) ≤ size self.
Proof.
  intros Hwf.
  assert (clamp pos count (N.of_nat (size self)) =
          N.min count (N.of_nat (size self) - pos)) as Hclamp.
  { unfold clamp.
    destruct (N.leb_spec (N.of_nat (size self)) pos); [lia|].
    destruct (N.ltb_spec count (N.of_nat (size self) - pos)); lia. }
  pose proof (size_substr_clamp Hchar self pos count Hwf) as Hsize.
  split_and!; [done|done|lia].
Qed.

(** An instance of X1 on ["Test String"]. *)
Lemma X1_substr_size_is_clamp_witness :
  size (substr fixedString 5 npos) = 6 ∧ clamp 5 npos 11 = 6%N ∧
  size (substr fixedString 5 3) = 3 ∧ clamp 11 3 11 = 0%N.
Proof.
  destruct (X1_substr_size_is_clamp char_character_type fixedString
              5 npos) as (_ & Hsize & _); [reflexivity|].
  split_and!; [|reflexivity..].
  apply Nat2N.inj. exact Hsize.
Defined.

(** X2: the content of [substr(pos, count)] is the region of the
    receiver's content that starts at [pos] and has at most [count]
    elements, for every position and count; the result has its N + 1
    slots and a zero in the last one. *)
Theorem X2_substr_content
    {T : Type} `{Element T} (Hchar : character_type T) {N : nat}
    (self : literal_t T N) (pos count : size_t) :
  well_formed self →
  sv (substr self pos count) =
    take (N.to_nat count) (drop (N.to_nat pos) (sv self)) ∧
  sealed (substr self pos count) ∧
  invariant (substr self pos count).
Proof.
  intros Hwf.
  pose proof (substr_valid N self pos count Hwf) as Hsealed.
  split_and!; [by apply sv_substr_total|done|by apply (sealed_invariant Hchar)].
Qed.

(** An instance of X2: ["Test String".substr(5, 3)] is ["Str"]. *)
Lemma X2_substr_content_witness :
  sv (substr fixedString 5 3) = chars "Str" ∧
  sv (substr fixedString 5 npos) = chars "String".
Proof.
  destruct (X2_substr_content char_character_type fixedString 5 3)
    as (Hsv & _); [reflexivity|].
  split; [rewrite Hsv|]; reflexivity.
Defined.

(** ** Construction and assignment from an array *)

Section FromArray.
Context {T : Type} `{Element T} {N : nat}.
Hypothesis Hchar : character_type T.
Hypothesis HN : 0 < N.

Lemma sv_of_storage (self : literal_t T N) (content : list T) :
  Forall (λ c, to_bool c = true) content →
  content `prefix_of` _data self → length content ≤ N →
  length content = N ∨ _data self !! length content = Some zero →
  size self = length content ∧ sv self = content.
Proof.
  destruct Hchar as (_ & HU & _).
  apply sv_from_prefix; [done|done|apply (to_bool_zero Hchar)].
Qed.

Lemma from_array_data (array : list T) :
  length array ≤ S N →
  _data (from_array N array) =
    array ++ replicate (S N - length array) zero.
Proof.
  intros Hlen. storage.
  rewrite copy_array_spec by (rewrite length_replicate; lia).
  by rewrite take_0, drop_replicate.
Qed.

Lemma from_array_terminated (content rest : list T) :
  Forall (λ c, to_bool c = true) content →
  length (content ++ zero :: rest) ≤ S N →
  size (from_array N (content ++ zero :: rest)) = length content ∧
  sv (from_array N (content ++ zero :: rest)) = content.
Proof.
  intros Htrue Hlen. rewrite length_app in Hlen. simpl in Hlen.
  assert (_data (from_array N (content ++ zero :: rest)) =
          content ++ zero :: rest ++
            replicate (S N - length (content ++ zero :: rest)) zero)
    as Hdata.
  { rewrite from_array_data by (rewrite length_app; simpl; lia).
    by rewrite <- app_assoc. }
  apply sv_of_storage; [done| |lia|right].
  - rewrite Hdata. by eexists.
  - rewrite Hdata. by rewrite lookup_app_r, Nat.sub_diag by lia.
Qed.

Lemma from_array_unterminated (array : list T) :
  Forall (λ c, to_bool c = true) array → length array ≤ N →
  size (from_array N array) = length array ∧
  sv (from_array N array) = array.
Proof.
  intros Htrue Hlen.
  apply sv_of_storage; [done| |lia|right];
    rewrite from_array_data by lia.
  - by eexists.
  - rewrite lookup_app_r, Nat.sub_diag by lia.
    apply lookup_replicate_2. lia.
Qed.

Lemma assign_array_data (self : literal_t T N) (array : list T) :
  well_formed self → length array = N →
  _data (assign_array self array) = array ++ drop N (_data self).
Proof.
  intros Hwf Hlen. storage.
  rewrite copy_array_spec by lia. by rewrite take_0, Hlen.
Qed.

End FromArray.

(** X6: a string built from an array holds as content the elements of
    the array before its first zero: the text of a zero-terminated array
    of at most N + 1 elements, whatever follows the zero, and the whole
    of an array of at most N non-zero elements.  The capacity the
    deduction guide picks, [Resized] of the array length, always has the
    room. *)
Theorem X6_construction_from_array
    {T : Type} `{Element T} (Hchar : character_type T) {N : nat} :
  0 < N →
  (∀ content rest : list T,
     Forall (λ c, to_bool c = true) content →
     length (content ++ zero :: rest) ≤ S N →
     size (from_array N (content ++ zero :: rest)) = length content ∧
     sv (from_array N (content ++ zero :: rest)) = content) ∧
  (∀ array : list T,
     Forall (λ c, to_bool c = true) array → length array ≤ N →
     size (from_array N array) = length array ∧
     sv (from_array N array) = array) ∧
  (∀ array : list T, length array ≤ Resized (length array)).
Proof.
  intros HN. split_and!.
  - intros content rest. by apply from_array_terminated.
  - intros array. by apply from_array_unterminated.
  - intros array. apply bit_ceil_ge.
Qed.

(** An instance of X6: the literal of ["Test String"], and the array
    ["ab\0cd"] in capacity 8. *)
Lemma X6_construction_from_array_witness :
  size fixedString = 11 ∧ sv fixedString = chars "Test String" ∧
  sv (from_array 8 (chars "ab" ++ zero :: chars "cd")) = chars "ab".
Proof.
  destruct (@X6_construction_from_array char _ char_character_type 16)
    as (Hterminated & _); [lia|].
  destruct (Hterminated (chars "Test String") []) as [Hsize Hsv];
    [repeat constructor|vm_compute; lia|].
  destruct (@X6_construction_from_array char _ char_character_type 8)
    as (Hterminated8 & _); [lia|].
  destruct (Hterminated8 (chars "ab") (chars "cd")) as [_ Hsv8];
    [repeat constructor|vm_compute; lia|].
  split_and!; [exact Hsize|exact Hsv|exact Hsv8].
Defined.

(** X8: array assignment replaces the content by the elements of the
    array before its first zero, or by the whole array of N non-zero
    elements, and leaves the last slot as it was. *)
Theorem X8_array_assignment
    {T : Type} `{Element T} (Hchar : character_type T) {N : nat}
    (self : literal_t T N) :
  0 < N → well_formed self →
  (∀ content rest : list T,
     Forall (λ c, to_bool c = true) content →
     length (content ++ zero :: rest) = N →
     sv (assign_array self (content ++ zero :: rest)) = content) ∧
  (∀ array : list T,
     Forall (λ c, to_bool c = true) array → length array = N →
     sv (assign_array self array) = array) ∧
  (∀ array : list T,
     length array = N →
     well_formed (assign_array self array) ∧
     _data (assign_array self array) !! N = _data self !! N).
Proof.
  intros HN Hwf. split_and!.
  - intros content rest Htrue Hlen.
    pose proof Hlen as Hlen'. rewrite length_app in Hlen'. simpl in Hlen'.
    apply (sv_of_storage Hchar HN); [done| |lia|right];
      rewrite assign_array_data, <- app_assoc by done.
    + by eexists.
    + by rewrite lookup_app_r, Nat.sub_diag by lia.
  - intros array Htrue Hlen.
    apply (sv_of_storage Hchar HN); [done| |lia|by left].
    rewrite assign_array_data by done. by eexists.
  - intros array Hlen. split.
    + unfold well_formed in *. storage. by rewrite copy_array_length.
    + storage. by rewrite copy_array_lookup_out by lia.
Qed.

(** An instance of X8: ["ab"] in capacity 4 assigned the arrays
    ["xy\0\0"] and ["wxyz"]. *)
Lemma X8_array_assignment_witness :
  let s : literal_t char 4 := from_array 4 (chars "ab" ++ [zero]) in
  sv (assign_array s (chars "xy" ++ [zero; zero])) = chars "xy" ∧
  sv (assign_array s (chars "wxyz")) = chars "wxyz".
Proof.
  intros s.
  destruct (X8_array_assignment char_character_type s)
    as (Hterminated & Hfull & _); [lia|reflexivity|].
  split.
  - apply (Hterminated (chars "xy") [zero]); [repeat constructor|].
    reflexivity.
  - apply Hfull; [repeat constructor|reflexivity].
Defined.

(** ** The content after an append *)

Section AppendContent.
Context {T : Type} `{Element T} {N : nat}.
Hypothesis Hchar : character_type T.
Hypothesis HN : 0 < N.
Implicit Types self : literal_t T N.

Lemma sv_append_array self (content rest : list T) :
  well_formed self → Forall (λ c, to_bool c = true) content →
  sv (append_array self (content ++ zero :: rest)) =
    take N (sv self ++ content).
Proof.
  intros Hwf Htrue. pose proof (size_le self) as Hle.
  pose proof (length_sv self Hwf) as Hlen.
  set (src := content ++ zero :: rest).
  assert (length (take N (sv self ++ content)) =
          N `min` (size self + length content)) as Hlen'.
  { by rewrite length_take, length_app, Hlen. }
  assert (∀ i, i < N `min` (size self + length content) →
            _data (append_array self src) !! i =
            take N (sv self ++ content) !! i) as Hsame.
  { intros i Hi. rewrite lookup_take_lt by lia. storage.
    destruct (decide (i < size self)) as [Hlt|Hge].
    - rewrite append_loop_lookup_before by done.
      rewrite lookup_app_l by lia. by rewrite sv_lookup.
    - rewrite append_loop_lookup_copied;
        [|lia|lia|lia|unfold src; rewrite length_app; simpl; lia].
      rewrite lookup_app_r by lia. rewrite Hlen.
      unfold src. rewrite lookup_app_l by lia. done. }
  apply (sv_of_storage Hchar HN).
  - apply Forall_take, Forall_app. split; [apply sv_populated|done].
  - exists (drop (length (take N (sv self ++ content)))
              (_data (append_array self src))).
    rewrite <- (take_drop (length (take N (sv self ++ content)))
                  (_data (append_array self src))) at 1.
    f_equal. apply list_eq. intros i.
    destruct (decide (i < N `min` (size self + length content))) as [Hi|Hi].
    + rewrite lookup_take_lt by lia. by apply Hsame.
    + rewrite lookup_take_ge by lia. symmetry.
      apply lookup_ge_None. lia.
  - lia.
  - rewrite Hlen'.
    destruct (decide (N ≤ size self + length content)) as [Hfull|Hroom];
      [left; lia|right].
    replace (N `min` (size self + length content))
      with (size self + length content) by lia.
    storage.
    rewrite append_loop_lookup_copied;
      [|lia|lia|lia|unfold src; rewrite length_app; simpl; lia].
    replace (size self + length content - size self)
      with (length content + 0) by lia.
    unfold src. by rewrite lookup_app_r, Nat.add_comm, Nat.add_sub by lia.
Qed.

Lemma source_of_literal {M} (rhs : literal_t T M) :
  well_formed rhs → invariant rhs →
  take (size rhs + 1) (_data rhs) = sv rhs ++ [zero].
Proof.
  intros Hwf [_ Hzero]. rewrite Nat.add_1_r.
  by rewrite (take_S_r _ _ _ Hzero).
Qed.

Lemma sv_append_literal {M} self (rhs : literal_t T M) :
  well_formed self → well_formed rhs → invariant rhs →
  sv (append_literal self rhs) = take N (sv self ++ sv rhs).
Proof.
  intros Hwf Hr Hinv.
  rewrite append_literal_as_array, source_of_literal by done.
  apply sv_append_array; [done|apply sv_populated].
Qed.

Lemma append_array_full self (rhs : list T) :
  size self = N → append_array self rhs = self.
Proof.
  intros Hfull. destruct self as [data]. unfold append_array.
  cbn [_data]. f_equal. rewrite Hfull.
  destruct rhs as [|c rhs]; simpl; [done|]. by rewrite decide_True.
Qed.

Lemma append_literal_empty {M} self (rhs : literal_t T M) :
  well_formed self → well_formed rhs → invariant rhs → size rhs = 0 →
  append_literal self rhs = self.
Proof.
  intros Hwf Hr Hinv Hempty.
  rewrite append_literal_as_array, source_of_literal by done.
  unfold sv. rewrite Hempty, take_0. simpl.
  pose proof (size_le self) as Hle.
  destruct (decide (size self = N)) as [Hfull|Hroom].
  { by apply append_array_full. }
  destruct Hchar as (_ & HU & Hzero).
  destruct (size_string_stop self) as (c & Hc & Hf); [done..|lia|].
  apply Hzero in Hf. subst c.
  destruct self as [data]. unfold append_array. cbn [_data] in *.
  f_equal. simpl. rewrite decide_False by done.
  by apply list_insert_id.
Qed.

End AppendContent.

Section AppendSelfContent.
Context {T : Type} `{Element T} {N : nat}.
Hypothesis Hchar : character_type T.
Hypothesis HN : 0 < N.
Implicit Types self : literal_t T N.

(** A source without a zero, copied into a receiver whose next slot holds
    a zero already or whose capacity it fills. *)
Lemma append_array_open self (content : list T) :
  well_formed self →
  N ≤ size self + length content ∨
    _data self !! (size self + length content) = Some zero →
  append_array self content = append_array self (content ++ [zero]).
Proof.
  intros Hwf Hroom. pose proof (size_le self) as Hle.
  assert (∀ l1 l2 : literal_t T N, _data l1 = _data l2 → l1 = l2) as Hext.
  { intros [d1] [d2]. simpl. by intros ->. }
  apply Hext. rewrite !append_array_layout by done.
  f_equal. rewrite length_app. simpl.
  destruct (decide (N - size self ≤ length content)) as [Hfull|Hless].
  - rewrite take_app_le by done. do 2 f_equal. lia.
  - destruct Hroom as [|Hzero]; [lia|].
    rewrite !take_ge by (rewrite ?length_app; simpl; lia).
    rewrite <- app_assoc. f_equal. simpl.
    replace (size self + (N - size self) `min` length content)
      with (size self + length content) by lia.
    replace (size self + (N - size self) `min` (length content + 1))
      with (S (size self + length content)) by lia.
    by apply drop_S.
Qed.

Lemma append_self_empty self :
  well_formed self → size self = 0 → append_self self = self.
Proof.
  intros Hwf Hempty. rewrite append_self_as_array by done.
  unfold sv. rewrite Hempty, take_0. simpl.
  destruct self as [data]. unfold append_array. cbn [_data] in *.
  f_equal. rewrite Hempty.
  unfold well_formed in Hwf. cbn [_data] in Hwf.
  destruct data as [|c0 data]; [done|]. simpl.
  by rewrite decide_False by lia.
Qed.

Lemma sv_append_self self :
  well_formed self →
  N ≤ 2 * size self + 1 ∨ _data self !! (2 * size self + 1) = Some zero →
  sv (append_self self) = take N (sv self ++ sv self ++ take 1 (sv self)).
Proof.
  intros Hwf Hroom.
  destruct (decide (size self = 0)) as [Hempty|Hpos].
  { rewrite append_self_empty by done.
    unfold sv. rewrite Hempty, !take_0. simpl. by rewrite !take_nil. }
  assert (take 1 (sv self) = take 1 (_data self)) as Hfirst.
  { unfold sv. rewrite take_take. f_equal. lia. }
  rewrite append_self_as_array by done. rewrite <- Hfirst.
  assert (length (sv self ++ take 1 (sv self)) = size self + 1) as Hlen.
  { rewrite length_app, length_take, length_sv by done. lia. }
  rewrite append_array_open.
  - apply (sv_append_array Hchar HN); [done|].
    apply Forall_app. split; [apply sv_populated|].
    apply Forall_take, sv_populated.
  - done.
  - rewrite Hlen.
    replace (size self + (size self + 1)) with (2 * size self + 1) by lia.
    done.
Qed.

End AppendSelfContent.

(** X9: after [self += rhs] for a string [rhs] that is another object
    than the receiver and holds a zero in its slot at index [rhs.size()],
    the content is the content of the receiver followed by the content of
    [rhs], cut at the capacity N.  When the source is the receiver
    itself, [s += s], the loop reads the buffer it writes: an empty
    receiver is left as it is, and otherwise, when the capacity ends by
    index 2 size() + 1 or the slot there holds a zero, the content is the
    content twice followed by its first element, cut at the capacity. *)
Theorem X9_append_content
    {T : Type} `{Element T} (Hchar : character_type T) {N : nat}
    (self : literal_t T N) :
  0 < N → well_formed self →
  (∀ (M : nat) (rhs : literal_t T M),
     well_formed rhs → invariant rhs →
     sv (append_literal self rhs) = take N (sv self ++ sv rhs) ∧
     size (append_literal self rhs) = N `min` (size self + size rhs) ∧
     sv self `prefix_of` sv (append_literal self rhs)) ∧
  (size self = 0 → append_self self = self) ∧
  (N ≤ 2 * size self + 1 ∨ _data self !! (2 * size self + 1) = Some zero →
   sv (append_self self) =
     take N (sv self ++ sv self ++ take 1 (sv self)) ∧
   size (append_self self) = N `min` (2 * size self + (1 `min` size self))).
Proof.
  intros HN Hwf. pose proof (size_le self) as Hle. split_and!.
  - intros M rhs Hr Hinv.
    pose proof (sv_append_literal Hchar HN self rhs Hwf Hr Hinv) as Hsv.
    assert (well_formed (append_literal self rhs)) as Hwf'.
    { unfold well_formed in *. simpl. by rewrite append_loop_length. }
    split_and!; [done| |].
    + rewrite <- (length_sv (append_literal self rhs)) by done.
      by rewrite Hsv, length_take, length_app, !length_sv.
    + rewrite Hsv, take_app, length_sv by done.
      rewrite take_ge by (rewrite length_sv by done; lia).
      by eexists.
  - by apply append_self_empty.
  - intros Hroom.
    pose proof (sv_append_self Hchar HN self Hwf Hroom) as Hsv.
    split; [done|].
    assert (well_formed (append_self self)) as Hwf'.
    { rewrite append_self_as_array by done.
      unfold well_formed in *. simpl. by rewrite append_loop_length. }
    rewrite <- (length_sv (append_self self)) by done.
    rewrite Hsv, length_take, !length_app, length_take, !length_sv by done.
    lia.
Qed.

(** Instances of X9 in capacity 8: ["array" += "Test String"], and
    ["ab"] appended to itself, which gives ["ababa"]. *)
Lemma X9_append_content_witness :
  let self : literal_t char 8 := from_array 8 (chars "array" ++ [zero]) in
  let ab : literal_t char 8 := from_array 8 (chars "ab" ++ [zero]) in
  sv (append_literal self fixedString) = chars "arrayTes" ∧
  sv (append_literal self emptyString4) = chars "array" ∧
  sv (append_self ab) = chars "ababa".
Proof.
  intros self ab.
  destruct (X9_append_content char_character_type self)
    as (Hother & _); [lia|reflexivity|].
  destruct (Hother _ fixedString) as (Hsv & _); [reflexivity| |].
  { split; [vm_compute; lia|reflexivity]. }
  destruct (Hother _ emptyString4) as (Hsv' & _); [reflexivity| |].
  { split; [vm_compute; lia|reflexivity]. }
  destruct (X9_append_content char_character_type ab)
    as (_ & _ & Hself); [lia|reflexivity|].
  destruct Hself as [Hself _]; [right; reflexivity|].
  split_and!; [rewrite Hsv|rewrite Hsv'|rewrite Hself]; reflexivity.
Defined.

(** X11: after [self += array] for an array with a zero in it, the
    content is the content of the receiver followed by the elements of
    the array before its first zero, cut at the capacity N; what follows
    the zero in the array has no effect on the content. *)
Theorem X11_append_array_content
    {T : Type} `{Element T} (Hchar : character_type T) {N : nat}
    (self : literal_t T N) (content rest : list T) :
  0 < N → well_formed self → Forall (λ c, to_bool c = true) content →
  sv (append_array self (content ++ zero :: rest)) =
    take N (sv self ++ content) ∧
  size (append_array self (content ++ zero :: rest)) =
    N `min` (size self + length content) ∧
  sv self `prefix_of` sv (append_array self (content ++ zero :: rest)).
Proof.
  intros HN Hwf Htrue. pose proof (size_le self) as Hle.
  pose proof (sv_append_array Hchar HN self content rest Hwf Htrue) as Hsv.
  assert (well_formed (append_array self (content ++ zero :: rest)))
    as Hwf'.
  { unfold well_formed in *. simpl. by rewrite append_loop_length. }
  split_and!; [done| |].
  - rewrite <- (length_sv (append_array self _)) by done.
    by rewrite Hsv, length_take, length_app, length_sv.
  - rewrite Hsv, take_app, length_sv by done.
    rewrite take_ge by (rewrite length_sv by done; lia).
    by eexists.
Qed.

(** An instance of X11: ["ab" += "cd\0ef"] in capacity 8. *)
Lemma X11_append_array_content_witness :
  let self : literal_t char 8 := from_array 8 (chars "ab" ++ [zero]) in
  sv (append_array self (chars "cd" ++ zero :: chars "ef")) = chars "abcd".
Proof.
  intros self.
  destruct (X11_append_array_content char_character_type self
              (chars "cd") (chars "ef")) as (Hsv & _);
    [lia|reflexivity|repeat constructor|].
  rewrite Hsv. reflexivity.
Defined.

(** X10: an append to a full receiver changes nothing, whatever the
    source, and so does the append of an empty string to any receiver. *)
Theorem X10_append_identities
    {T : Type} `{Element T} (Hchar : character_type T) {N : nat}
    (self : literal_t T N) :
  0 < N → well_formed self →
  (size self = N →
   (∀ rhs : list T, append_array self rhs = self) ∧
   (∀ (M : nat) (rhs : literal_t T M), append_literal self rhs = self)) ∧
  (∀ (M : nat) (rhs : literal_t T M),
     well_formed rhs → invariant rhs → size rhs = 0 →
     append_literal self rhs = self).
Proof.
  intros HN Hwf. split.
  - intros Hfull. split.
    + intros rhs. by apply append_array_full.
    + intros M rhs. rewrite append_literal_as_array.
      by apply append_array_full.
  - intros M rhs Hr Hinv Hempty. by apply (append_literal_empty Hchar).
Qed.

(** An instance of X10: ["abcd"] fills capacity 4; ["ab"] does not. *)
Lemma X10_append_identities_witness :
  let full : literal_t char 4 := from_array 4 (chars "abcd") in
  let ab : literal_t char 4 := from_array 4 (chars "ab" ++ [zero]) in
  append_literal full fixedString = full ∧
  append_literal ab emptyString4 = ab.
Proof.
  intros full ab.
  destruct (X10_append_identities char_character_type full)
    as [Hfull _]; [lia|reflexivity|].
  destruct (X10_append_identities char_character_type ab)
    as [_ Hempty]; [lia|reflexivity|].
  split.
  - apply Hfull. reflexivity.
  - apply Hempty; [reflexivity| |reflexivity].
    split; [vm_compute; lia|reflexivity].
Defined.

(** ** Widening and concatenation *)

Lemma char_eq_spec (x y : char) : char_eq x y = true ↔ x = y.
Proof. apply bool_decide_eq_true. Qed.

Lemma LiteralString_Resized (M : nat) :
  LiteralString char (Resized M) = true.
Proof.
  apply (LiteralString_true _ char_character_type).
  unfold Resized. destruct (bit_ceil_pow2 M) as [k ->].
  pose proof (Nat.pow_nonzero 2 k). lia.
Qed.

Lemma Resized_pos (M : nat) : 0 < Resized M.
Proof.
  unfold Resized. destruct (bit_ceil_pow2 M) as [k ->].
  pose proof (Nat.pow_nonzero 2 k). lia.
Qed.

Lemma sv_widen {M : nat} (N : nat) (other : literal_t char M) :
  well_formed other → M < N → sv (widen N other) = sv other.
Proof.
  intros Hwf HM. unfold sv at 1. rewrite size_widen by done.
  pose proof (size_le other) as Hle.
  apply list_eq. intros i. unfold sv.
  destruct (decide (i < size other)) as [Hi|Hi].
  - rewrite !lookup_take_lt by done. apply widen_lookup_copied; (done || lia).
  - by rewrite !lookup_take_ge by lia.
Qed.

Lemma concat_sealed {N1 N2 : nat} (lhs : literal_t char N1)
    (rhs : literal_t char N2) : 0 < N2 → sealed (concat lhs rhs).
Proof.
  intros HN2. apply append_literal_valid, widen_valid.
  pose proof (bit_ceil_ge (N1 + N2)). unfold Resized. lia.
Qed.

(** X7: the widening copy of a string of capacity M into a larger
    capacity, N > M, has the content of its source and compares equal to
    it; the copy has a zero in its last slot. *)
Theorem X7_widening_copy {M : nat} (N : nat) (safe : bool)
    (other : literal_t char M) :
  0 < M → M < N → well_formed other →
  sv (widen N other) = sv other ∧
  size (widen N other) = size other ∧
  sealed (widen N other) ∧
  operator_eq safe (Some char_eq) (widen N other) other = Return true.
Proof.
  intros HM HN Hwf.
  pose proof (sv_widen N other Hwf HN) as Hsv.
  pose proof (widen_valid M N other HN) as Hsealed.
  split_and!; [done|by apply size_widen|done|].
  rewrite string_equality.
  - by rewrite bool_decide_eq_true_2.
  - apply (LiteralString_true _ char_character_type). lia.
  - by apply (LiteralString_true _ char_character_type).
  - apply Hsealed.
  - done.
  - apply char_eq_spec.
Qed.

(** An instance of X7: ["Test String"] widened from 16 to 64. *)
Lemma X7_widening_copy_witness :
  sv (widen 64 fixedString) = chars "Test String" ∧
  operator_eq true (Some char_eq) (widen 64 fixedString) fixedString =
    Return true.
Proof.
  destruct (X7_widening_copy 64 true fixedString)
    as (Hsv & _ & _ & Heq); [vm_compute; lia..|reflexivity|].
  split; [rewrite Hsv; reflexivity|exact Heq].
Defined.

(** X12: concatenation is associative on contents: for three strings
    over [char], the second and the third holding a zero in their slot at
    index size(), the two ways of concatenating them give literals, of
    capacities that may differ, with the same content, which compare
    equal. *)
Theorem X12_concatenation_is_associative {N1 N2 N3 : nat} (safe : bool)
    (a : literal_t char N1) (b : literal_t char N2) (c : literal_t char N3) :
  0 < N1 → 0 < N2 → 0 < N3 →
  well_formed a → well_formed b → well_formed c →
  invariant b → invariant c →
  sv (concat (concat a b) c) = sv a ++ sv b ++ sv c ∧
  sv (concat a (concat b c)) = sv a ++ sv b ++ sv c ∧
  operator_eq safe (Some char_eq) (concat (concat a b) c)
    (concat a (concat b c)) = Return true.
Proof.
  intros HN1 HN2 HN3 Ha Hb Hc Hib Hic.
  pose proof (Resized_pos (N2 + N3)) as HN23.
  pose proof (concat_sealed a b HN2) as [Hwab _].
  pose proof (concat_sealed b c HN3) as Hsbc.
  pose proof (sealed_invariant char_character_type _ Hsbc) as Hibc.
  assert (sv (concat (concat a b) c) = sv a ++ sv b ++ sv c) as Hleft.
  { by rewrite !sv_concat, app_assoc by done. }
  assert (sv (concat a (concat b c)) = sv a ++ sv b ++ sv c) as Hright.
  { rewrite sv_concat by (done || apply Hsbc). by rewrite sv_concat. }
  split_and!; [done..|].
  rewrite string_equality.
  - by rewrite Hleft, Hright, bool_decide_eq_true_2.
  - apply LiteralString_Resized.
  - apply LiteralString_Resized.
  - by apply concat_sealed.
  - by apply concat_sealed.
  - apply char_eq_spec.
Qed.

(** An instance of X12 on ["ab"], ["cde"] and ["f"]: capacities 8 on both
    sides here, and the content ["abcdef"]. *)
Lemma X12_concatenation_is_associative_witness :
  let a : literal_t char 2 := from_array 2 (chars "ab" ++ [zero]) in
  let b : literal_t char 4 := from_array 4 (chars "cde" ++ [zero]) in
  let c : literal_t char 2 := from_array 2 (chars "f" ++ [zero]) in
  sv (concat (concat a b) c) = chars "abcdef" ∧
  operator_eq true (Some char_eq) (concat (concat a b) c)
    (concat a (concat b c)) = Return true.
Proof.
  intros a b c.
  destruct (X12_concatenation_is_associative true a b c)
    as (Hsv & _ & Heq); [lia|lia|lia|reflexivity..| | |].
  { split; [vm_compute; lia|reflexivity]. }
  { split; [vm_compute; lia|reflexivity]. }
  split; [rewrite Hsv; reflexivity|exact Heq].
Defined.

(** X3: a string cut in two at any position within its content and put
    together again equals the original: the concatenation of
    [substr(0, k)] and [substr(k)] has the content of the receiver. *)
Theorem X3_split_and_rejoin {N : nat} (safe : bool)
    (s : literal_t char N) (k : nat) :
  0 < N → well_formed s → (N.of_nat N ≤ npos)%N → k ≤ size s →
  sv (substr s 0 (N.of_nat k)) = take k (sv s) ∧
  sv (substr s (N.of_nat k) npos) = drop k (sv s) ∧
  sv (concat (substr s 0 (N.of_nat k)) (substr s (N.of_nat k) npos)) =
    sv s ∧
  operator_eq safe (Some char_eq)
    (concat (substr s 0 (N.of_nat k)) (substr s (N.of_nat k) npos)) s =
    Return true.
Proof.
  intros HN Hwf Hmax Hk. pose proof (size_le s) as Hle.
  assert (sv (substr s 0 (N.of_nat k)) = take k (sv s)) as Hhead.
  { rewrite (sv_substr_total char_character_type) by done.
    by rewrite Nat2N.id, drop_0. }
  assert (sv (substr s (N.of_nat k) npos) = drop k (sv s)) as Htail.
  { rewrite (sv_substr_total char_character_type) by done.
    rewrite Nat2N.id. apply take_ge.
    rewrite length_drop, length_sv by done. lia. }
  pose proof (substr_valid N s 0 (N.of_nat k) Hwf) as [Hw1 _].
  pose proof (substr_valid N s (N.of_nat k) npos Hwf) as Hs2.
  assert (sv (concat (substr s 0 (N.of_nat k))
                (substr s (N.of_nat k) npos)) = sv s) as Hjoin.
  { rewrite sv_concat;
      [|done|done|apply Hs2|by apply (sealed_invariant char_character_type)].
    by rewrite Hhead, Htail, take_drop. }
  split_and!; [done..|].
  rewrite string_equality.
  - by rewrite Hjoin, bool_decide_eq_true_2.
  - apply LiteralString_Resized.
  - by apply (LiteralString_true _ char_character_type).
  - by apply concat_sealed.
  - done.
  - apply char_eq_spec.
Qed.

(** An instance of X3: ["Test String"] cut after ["Test "]. *)
Lemma X3_split_and_rejoin_witness :
  sv (substr fixedString 0 5) = chars "Test " ∧
  sv (substr fixedString 5 npos) = chars "String" ∧
  operator_eq true (Some char_eq)
    (concat (substr fixedString 0 5) (substr fixedString 5 npos))
    fixedString = Return true.
Proof.
  destruct (X3_split_and_rejoin true fixedString 5)
    as (Hhead & Htail & _ & Heq);
    [vm_compute; lia|reflexivity|vm_compute; discriminate|vm_compute; lia|].
  split_and!; [reflexivity|reflexivity|exact Heq].
Defined.

(** X13: concatenation of a string over [char], of capacity N > 0, with
    an array that holds a zero, on either side: the result has the
    bucketed capacity of the array length plus the capacity of the string.
    [s + array] has as content the content of [s] followed by the text of
    the array before its first zero; [array + s] has that text followed
    by the content of [s] when [s] holds a zero in its slot at index
    size(). *)
Theorem X13_concatenation_with_arrays {N : nat} (s : literal_t char N)
    (content rest : list char) :
  0 < N → well_formed s →
  Forall (λ c, to_bool c = true) content →
  let array := content ++ zero :: rest in
  ArraySize (concat_array_literal array s) = Resized (length array + N) ∧
  ArraySize (concat_literal_array s array) = Resized (N + length array) ∧
  sv (concat_literal_array s array) = sv s ++ content ∧
  (invariant s → sv (concat_array_literal array s) = content ++ sv s).
Proof.
  intros HN Hwf Htrue array. subst array.
  pose proof (size_le s) as Hle.
  pose proof (length_sv s Hwf) as Hlen.
  assert (length (content ++ zero :: rest) =
          length content + S (length rest)) as Harray.
  { rewrite length_app. simpl. lia. }
  split_and!; [reflexivity..| |].
  - unfold concat_literal_array.
    pose proof (bit_ceil_ge (N + length (content ++ zero :: rest))) as HR.
    pose proof (Resized_pos (N + length (content ++ zero :: rest))) as Hpos.
    unfold Resized in *.
    destruct (widen_valid N (bit_ceil (N + length (content ++ zero :: rest)))
                s) as [Hw _]; [lia|].
    rewrite (sv_append_array char_character_type Hpos) by done.
    rewrite sv_widen by (done || lia).
    apply take_ge. rewrite length_app. lia.
  - intros Hinv. unfold concat_array_literal.
    pose proof (bit_ceil_ge (length (content ++ zero :: rest) + N)) as HR.
    pose proof (Resized_pos (length (content ++ zero :: rest) + N)) as Hpos.
    unfold Resized in *.
    destruct (from_array_terminated char_character_type Hpos content rest)
      as [Hsize Hsv]; [done|lia|].
    destruct (from_array_valid
                (bit_ceil (length (content ++ zero :: rest) + N))
                (content ++ zero :: rest)) as [Hw _]; [lia|lia|].
    rewrite (sv_append_literal char_character_type Hpos) by done.
    rewrite Hsv. apply take_ge. rewrite length_app. lia.
Qed.

(** An instance of X13 with ["Test String"] and the array ["ab"]. *)
Lemma X13_concatenation_with_arrays_witness :
  sv (concat_array_literal (chars "ab" ++ [zero]) fixedString) =
    chars "abTest String" ∧
  sv (concat_literal_array fixedString (chars "ab" ++ [zero])) =
    chars "Test Stringab".
Proof.
  destruct (X13_concatenation_with_arrays fixedString (chars "ab") [])
    as (_ & _ & Hright & Hleft).
  - vm_compute. lia.
  - reflexivity.
  - repeat constructor.
  - split; [rewrite Hleft|rewrite Hright]; [reflexivity| |reflexivity].
    split; [vm_compute; lia|reflexivity].
Defined.

(** ** Emptiness, size and truth *)

(** X14: on a string, [empty()], [size() == 0] and the negation of the
    conversion to [bool] agree.  A value is always [empty()] with size()
    0, while its conversion to [bool] is that of its element and the
    conversion to the element type gives the element back. *)
Theorem X14_empty_size_and_bool {T : Type} `{Element T} {N : nat}
    (s : literal_t T N) :
  @Undefined T _ = false →
  (0 < N → well_formed s →
   (empty s = true ↔ size s = 0) ∧
   operator_bool s = negb (empty s) ∧
   (operator_bool s = true ↔ 0 < size s)) ∧
  (∀ c : T,
     empty (from_value 0 c) = true ∧ size (from_value 0 c) = 0 ∧
     operator_bool (from_value 0 c) = to_bool c ∧
     operator_T (from_value 0 c) = c).
Proof.
  intros HU. split.
  - intros HN Hwf.
    pose proof (empty_size s HN HU Hwf) as Hempty.
    assert (operator_bool s = negb (empty s)) as Hbool.
    { unfold operator_bool, empty. rewrite HU.
      apply Nat.ltb_lt in HN as HN'. rewrite HN'. simpl.
      destruct N; [lia|]. simpl. by rewrite negb_involutive. }
    split_and!; [done|done|].
    rewrite Hbool, negb_true_iff. split.
    + intros He. destruct (decide (size s = 0)) as [Hz|]; [|lia].
      apply Hempty in Hz. congruence.
    + intros Hpos. destruct (empty s) eqn:He; [|done].
      destruct Hempty as [Hz _]. specialize (Hz eq_refl). lia.
  - intros c. unfold operator_bool, operator_T. rewrite HU.
    by split_and!.
Qed.

(** An instance of X14: ["Test String"], ["\0\0\0"] and the value 5. *)
Lemma X14_empty_size_and_bool_witness :
  operator_bool fixedString = true ∧ empty fixedString = false ∧
  operator_bool emptyString4 = false ∧ empty emptyString4 = true ∧
  operator_bool (from_value 0 5%Z) = true ∧
  empty (from_value 0 5%Z) = true.
Proof.
  destruct (@X14_empty_size_and_bool char char_element _ fixedString
              eq_refl)
    as [Hstring _].
  destruct Hstring as (_ & Hbool & _); [vm_compute; lia|reflexivity|].
  destruct (@X14_empty_size_and_bool Z int_element 0 (from_value 0 5%Z)
              eq_refl)
    as [_ Hvalue].
  destruct (Hvalue 5%Z) as (Hempty & _ & Hvbool & _).
  split; [rewrite Hbool; reflexivity|].
  split_and!; [reflexivity..|exact Hvbool|exact Hempty].
Defined.

(** ** Writing through [operator []] *)

Section IndexWrite.
Context {T : Type} `{Element T} {N : nat}.
Hypothesis Hchar : character_type T.
Variable safe : bool.
Implicit Types self : literal_t T N.

Lemma index_write_in_range self (i : nat) (c : T) :
  i < size self →
  index_write safe i c self = (Return (), mk_literal (<[i := c]> (_data self))).
Proof.
  intros Hi. pose proof (size_le self).
  destruct (subscript_populated safe self i Hi) as (x & _ & _ & Hx).
  unfold index_write. rewrite Hx.
  by assert ((0 <? N) = true) as -> by (apply Nat.ltb_lt; lia).
Qed.

Lemma size_after_zero_write self (i : nat) (c : T) :
  i < size self → to_bool c = false →
  size (mk_literal (N:=N) (<[i := c]> (_data self))) = i.
Proof.
  intros Hi Hc. pose proof (size_le self).
  destruct Hchar as (_ & HU & _).
  destruct (size_populated self i Hi) as (x & Hx & _).
  apply size_unique; [lia|done|lia| |]; cbn [_data].
  - intros j Hj. rewrite list_lookup_insert_ne by lia.
    apply size_populated. lia.
  - right. exists c. split; [|done].
    apply list_lookup_insert_eq. by eapply lookup_lt_Some.
Qed.

Lemma size_after_nonzero_write self (i : nat) (c : T) :
  well_formed self → i < size self → to_bool c = true →
  size (mk_literal (N:=N) (<[i := c]> (_data self))) = size self.
Proof.
  intros Hwf Hi Hc. pose proof (size_le self).
  destruct Hchar as (_ & HU & _).
  destruct (size_populated self i Hi) as (x & Hx & _).
  apply size_unique; [lia|done|lia| |]; cbn [_data].
  - intros j Hj. destruct (decide (j = i)) as [->|Hne].
    + exists c. split; [|done].
      apply list_lookup_insert_eq. by eapply lookup_lt_Some.
    + rewrite list_lookup_insert_ne by lia. by apply size_populated.
  - destruct (decide (size self = N)) as [|Hroom]; [by left|right].
    rewrite list_lookup_insert_ne by lia.
    apply size_string_stop; [lia|done|done|lia].
Qed.

End IndexWrite.

(** X15: an assignment [s[i] = c] below size() succeeds and writes slot
    [i] only.  It keeps size() when [c] is not zero and cuts the string
    to size() = [i] when [c] is zero.  In safe mode no assignment through
    [operator []] makes size() grow. *)
Theorem X15_indexed_assignment
    {T : Type} `{Element T} (Hchar : character_type T) {N : nat}
    (safe : bool) (s : literal_t T N) :
  well_formed s →
  (∀ i c, i < size s →
     index_write safe i c s =
       (Return (), mk_literal (<[i := c]> (_data s))) ∧
     (to_bool c = true → size (snd (index_write safe i c s)) = size s) ∧
     (to_bool c = false → size (snd (index_write safe i c s)) = i)) ∧
  (∀ n c, size (snd (index_write true n c s)) ≤ size s).
Proof.
  intros Hwf.
  assert (∀ mode i c, i < size s →
            index_write mode i c s =
              (Return (), mk_literal (<[i := c]> (_data s))) ∧
            (to_bool c = true →
             size (snd (index_write mode i c s)) = size s) ∧
            (to_bool c = false →
             size (snd (index_write mode i c s)) = i)) as Hin.
  { intros mode i c Hi.
    rewrite (index_write_in_range mode s i c Hi). cbn [snd].
    split_and!; [done| |].
    - intros Hc. by apply size_after_nonzero_write.
    - intros Hc. by apply size_after_zero_write. }
  split; [apply Hin|].
  intros n c. destruct (decide (n < size s)) as [Hlt|Hge].
  - destruct (Hin true n c Hlt) as (_ & Htrue & Hfalse).
    destruct (to_bool c) eqn:Hc.
    + rewrite Htrue by done. lia.
    + rewrite Hfalse by done. lia.
  - pose proof (size_le s).
    destruct (decide (N = 0)) as [->|HN].
    { rewrite (size_value (snd _)) by done. lia. }
    unfold index_write.
    rewrite subscript_safe_throws by lia. done.
Qed.

(** An instance of X15 on ["Test String"]: a zero written at index 4
    leaves ["Test"]. *)
Lemma X15_indexed_assignment_witness :
  sv (snd (index_write true 4 zero fixedString)) = chars "Test" ∧
  size (snd (index_write true 4 zero fixedString)) = 4 ∧
  size (snd (index_write true 4 "-"%char fixedString)) = 11.
Proof.
  destruct (X15_indexed_assignment char_character_type true fixedString)
    as [Hin _]; [reflexivity|].
  destruct (Hin 4 zero) as (_ & _ & Hzero); [vm_compute; lia|].
  destruct (Hin 4 "-"%char) as (_ & Hkeep & _); [vm_compute; lia|].
  split_and!; [reflexivity|by apply Hzero|by apply Hkeep].
Defined.

(** ** Iteration *)

Section Visit.
Context {T : Type}.
Implicit Types data : list T.

Lemma visit_spec data : ∀ fuel it last,
  it ≤ last → last ≤ length data → last - it ≤ fuel →
  visit data it last fuel = take (last - it) (drop it data).
Proof.
  induction fuel as [|k IH]; intros it last Hit Hlast Hfuel; simpl.
  { by replace (last - it) with 0 by lia. }
  destruct (Nat.eqb_spec it last) as [->|Hne].
  { by rewrite Nat.sub_diag. }
  destruct (lookup_lt_is_Some_2 data it) as [c Hc]; [lia|].
  rewrite Hc, IH by lia.
  replace (last - it) with (S (last - S it)) by lia.
  by rewrite (drop_S data c it Hc).
Qed.

Lemma visit_reverse_spec data : ∀ fuel base,
  base ≤ length data → base ≤ fuel →
  visit_reverse data base 0 fuel = reverse (take base data).
Proof.
  induction fuel as [|k IH]; intros base Hbase Hfuel; simpl.
  { by replace base with 0 by lia. }
  destruct (Nat.eqb_spec base 0) as [->|Hne]; [done|].
  destruct (lookup_lt_is_Some_2 data (base - 1)) as [c Hc]; [lia|].
  rewrite Hc, IH by lia.
  replace base with (S (base - 1)) at 2 by lia.
  by rewrite (take_S_r data (base - 1) c Hc), reverse_snoc.
Qed.

End Visit.

(** X16: a forward loop from [begin()] to [end()] visits the content, in
    order.  A loop from [rbegin()] to [rend()] visits size() + 1 elements:
    the slot at index size() first, which holds zero in a literal that
    satisfies the invariant, and then the content in reverse. *)
Theorem X16_iteration {T : Type} `{Element T} {N : nat}
    (s : literal_t T N) :
  well_formed s →
  iterate s = sv s ∧
  iterate_reverse s = reverse (take (S (size s)) (_data s)) ∧
  length (iterate_reverse s) = S (size s) ∧
  (invariant s → iterate_reverse s = zero :: reverse (sv s)).
Proof.
  intros Hwf. pose proof (size_le s) as Hle.
  unfold well_formed in Hwf.
  assert (iterate_reverse s = reverse (take (S (size s)) (_data s)))
    as Hreverse.
  { unfold iterate_reverse, rbegin, rend.
    replace (S N - (N - size s)) with (S (size s)) by lia.
    apply visit_reverse_spec; lia. }
  split_and!.
  - unfold iterate, begin_, end_, sv.
    rewrite visit_spec by lia. by rewrite Nat.sub_0_r, drop_0.
  - done.
  - rewrite Hreverse, length_reverse, length_take. lia.
  - intros [_ Hzero]. rewrite Hreverse.
    by rewrite (take_S_r _ _ _ Hzero), reverse_snoc.
Qed.

(** An instance of X16 on the string ["abc"]. *)
Lemma X16_iteration_witness :
  let s : literal_t char 4 := from_array 4 (chars "abc" ++ [zero]) in
  iterate s = chars "abc" ∧ iterate_reverse s = zero :: chars "cba".
Proof.
  intros s.
  destruct (X16_iteration s) as (Hforward & _ & _ & Hreverse);
    [reflexivity|].
  split; [rewrite Hforward; reflexivity|].
  rewrite Hreverse; [reflexivity|].
  split; [vm_compute; lia|reflexivity].
Defined.

(** ** Checked access with [at] *)

(** X17: [at(n)] checks [n] against the N + 1 slots of the array and not
    against size(): it throws exactly for [n > N], and returns the slot
    for every [n <= N].  Below size() it agrees with [operator []]; at
    size() it returns the zero of a literal that satisfies the invariant,
    where [operator []] throws in safe mode. *)
Theorem X17_at_checks_the_array_bounds {T : Type} `{Element T} {N : nat}
    (s : literal_t T N) :
  0 < N → well_formed s →
  (∀ n, at_ s n = None ↔ N < n) ∧
  (∀ n, n ≤ N → ∃ c, at_ s n = Some c ∧ _data s !! n = Some c) ∧
  (∀ safe i, i < size s →
     ∃ c, at_ s i = Some c ∧ subscript safe s i = Return c) ∧
  (invariant s →
   at_ s (size s) = Some zero ∧
   subscript true s (size s) =
     Throw (range_error "subscript index outside literal_t limits")).
Proof.
  intros HN Hwf. pose proof (size_le s) as Hle.
  unfold well_formed in Hwf.
  assert (∀ n, n ≤ N → at_ s n = _data s !! n) as Hat.
  { intros n Hn. unfold at_.
    by assert ((S N <=? n) = false) as -> by (apply Nat.leb_gt; lia). }
  split_and!.
  - intros n. unfold at_. destruct (Nat.leb_spec (S N) n) as [Hout|Hin].
    + split; [lia|done].
    + split; [|lia]. intros Hnone. apply lookup_ge_None in Hnone. lia.
  - intros n Hn. rewrite Hat by done.
    destruct (lookup_lt_is_Some_2 (_data s) n) as [c Hc]; [lia|]. eauto.
  - intros safe i Hi.
    destruct (subscript_populated safe s i Hi) as (c & Hc & _ & Hsub).
    exists c. rewrite Hat by lia. done.
  - intros [_ Hzero]. rewrite Hat by done. split; [done|].
    by apply subscript_safe_throws.
Qed.

(** An instance of X17 on ["Test String"], of capacity 16. *)
Lemma X17_at_checks_the_array_bounds_witness :
  at_ fixedString 11 = Some zero ∧ at_ fixedString 16 = Some zero ∧
  at_ fixedString 17 = None ∧ at_ fixedString 10 = Some "g"%char.
Proof.
  destruct (X17_at_checks_the_array_bounds fixedString)
    as (Hnone & _ & _ & Hsize); [vm_compute; lia|reflexivity|].
  destruct Hsize as [Hzero _]; [split; [vm_compute; lia|reflexivity]|].
  split_and!; [exact Hzero|reflexivity| |reflexivity].
  apply Hnone. vm_compute. lia.
Defined.

(** ** First and last element *)




Section Ends.
Context {T : Type} `{Element T} {N : nat}.
Hypothesis Hchar : character_type T.
Hypothesis HN : 0 < N.
Implicit Types self : literal_t T N.


End Ends.



(** ** Prefix, suffix and infix tests *)

Lemma char_lt_strict_total : strict_total char_lt.
Proof.
  unfold char_lt. split.
  - intros x y Hlt. apply Nat.ltb_lt in Hlt. apply Nat.ltb_ge. lia.
  - intros x y Hxy Hyx. apply Nat.ltb_ge in Hxy, Hyx.
    rewrite <- (ascii_nat_embedding x), <- (ascii_nat_embedding y).
    f_equal. lia.
Qed.

Section ViewCompare.
Context {T : Type} `{Element T} `{EqDecision T}.
Variable lt : T → T → bool.
Hypothesis Hlt : strict_total lt.

Lemma lt_irreflexive (x : T) : lt x x = false.
Proof.
  destruct Hlt as [Hasym _]. destruct (lt x x) eqn:Hx; [|done].
  pose proof (Hasym x x Hx). congruence.
Qed.

Lemma traits_compare_Eq : ∀ (n : nat) (s1 s2 : list T),
  n ≤ length s1 → n ≤ length s2 →
  char_traits.compare lt s1 s2 n = Eq ↔ take n s1 = take n s2.
Proof.
  destruct Hlt as [Hasym Htri].
  induction n as [|n IH]; intros s1 s2 H1 H2; [by destruct s1, s2|].
  destruct s1 as [|x s1]; [simpl in H1; lia|].
  destruct s2 as [|y s2]; [simpl in H2; lia|].
  simpl in *. destruct (lt x y) eqn:Hxy.
  { split; [done|]. intros [= -> _]. rewrite lt_irreflexive in Hxy. done. }
  destruct (lt y x) eqn:Hyx.
  { split; [done|]. intros [= -> _]. rewrite lt_irreflexive in Hyx. done. }
  pose proof (Htri x y Hxy Hyx) as ->.
  rewrite IH by lia. split; [by intros ->|by intros [=]].
Qed.


Lemma view_compare_Eq (s v : list T) : view_compare lt s v = Eq ↔ s = v.
Proof.
  unfold view_compare.
  pose proof (traits_compare_Eq (length s `min` length v) s v) as Htraits.
  destruct (char_traits.compare lt s v (length s `min` length v)) eqn:Hc.
  - rewrite Nat.compare_eq_iff. split.
    + intros Hlen. destruct Htraits as [Hsame _]; [lia..|].
      specialize (Hsame eq_refl).
      by rewrite Hlen, Nat.min_id, <- Hlen, take_ge, (take_ge v) in Hsame
        by lia.
    + by intros ->.
  - split; [done|]. intros ->.
    destruct Htraits as [_ Hsame]; [lia..|]. by specialize (Hsame eq_refl).
  - split; [done|]. intros ->.
    destruct Htraits as [_ Hsame]; [lia..|]. by specialize (Hsame eq_refl).
Qed.


End ViewCompare.

Section Search.
Context {T : Type} `{EqDecision T}.
Implicit Types s v : list T.

Lemma lowest_found (P : nat → bool) : ∀ (n i : nat),
  (N.of_nat (i + n) ≤ npos)%N →
  string_view.lowest P i n ≠ npos ↔ ∃ j, i ≤ j ∧ j < i + n ∧ P j = true.
Proof.
  induction n as [|n IH]; intros i Hmax; simpl.
  { split; [done|]. intros (j & ? & ? & _). lia. }
  destruct (P i) eqn:Hi.
  - split.
    + intros _. exists i. split_and!; [lia..|done].
    + intros _. unfold npos in *. lia.
  - rewrite IH by lia. split.
    + intros (j & Hj1 & Hj2 & Hj). exists j. split_and!; [lia..|done].
    + intros (j & Hj1 & Hj2 & Hj). exists j.
      destruct (decide (j = i)) as [->|]; [congruence|].
      split_and!; [lia..|done].
Qed.

Lemma matches_at_infix s v (j : nat) :
  j + length v ≤ length s →
  string_view.matches_at s v j = true ↔
  ∃ l2, s = take j s ++ v ++ l2.
Proof.
  intros Hj. unfold string_view.matches_at. rewrite bool_decide_eq_true.
  split.
  - intros Hv. exists (drop (length v) (drop j s)).
    rewrite <- Hv at 1. by rewrite !take_drop.
  - intros [l2 Hs]. rewrite Hs at 1.
    rewrite drop_app_length' by (rewrite length_take; lia).
    by rewrite take_app_length.
Qed.

Lemma find_infix s v :
  (N.of_nat (length s) < npos)%N →
  string_view.find s v 0 ≠ npos ↔ ∃ l1 l2, s = l1 ++ v ++ l2.
Proof.
  intros Hmax. unfold string_view.find.
  assert ((N.of_nat (length s) <? 0)%N = false) as ->
    by (apply N.ltb_ge; lia).
  rewrite N2Nat.inj_0, Nat.sub_0_r.
  rewrite lowest_found by lia. split.
  - intros (j & _ & Hj & Hm).
    apply matches_at_infix in Hm as [l2 Hl2]; [|lia]. eauto.
  - intros (l1 & l2 & Hs).
    assert (length s = length l1 + (length v + length l2)) as Hlen.
    { rewrite Hs at 1. by rewrite !length_app. }
    exists (length l1). split_and!; [lia..|].
    apply matches_at_infix; [lia|].
    exists l2.
    assert (take (length l1) s = l1) as ->
      by (rewrite Hs; apply take_app_length).
    done.
Qed.

End Search.

Section Tests.
Context {T : Type} `{Element T} `{EqDecision T} {N : nat}.
Variable lt : T → T → bool.
Implicit Types (self : literal_t T N) (v : list T).

Lemma view_substr_head (l : list T) (n : nat) :
  view_substr l 0 (N.of_nat n) = take n l.
Proof.
  unfold view_substr. rewrite drop_0, Nat.sub_0_r.
  rewrite <- Nat2N.inj_min, Nat2N.id.
  by rewrite <- take_take, (take_ge l (length l)).
Qed.

Lemma view_substr_tail (l : list T) (p : nat) :
  (N.of_nat (length l) ≤ npos)%N → view_substr l p npos = drop p l.
Proof.
  intros Hmax. unfold view_substr. apply take_ge.
  rewrite length_drop. lia.
Qed.

Lemma starts_with_prefix self v :
  starts_with self v = true ↔ v `prefix_of` sv self.
Proof.
  unfold starts_with. rewrite bool_decide_eq_true, view_substr_head.
  split.
  - intros Hv. exists (drop (length v) (sv self)).
    rewrite <- Hv at 1. by rewrite take_drop.
  - intros [k ->]. by rewrite take_app_length.
Qed.

Lemma ends_with_suffix self v :
  strict_total lt → well_formed self → (N.of_nat N ≤ npos)%N →
  ends_with lt self v = true ↔ v `suffix_of` sv self.
Proof.
  intros Hlt Hwf Hmax. pose proof (size_le self) as Hle.
  pose proof (length_sv self Hwf) as Hlen.
  unfold ends_with, compare_at.
  rewrite view_substr_tail by lia.
  destruct (Nat.leb_spec (length v) (size self)) as [Hfits|Hlong]; simpl.
  - pose proof (view_compare_Eq lt Hlt
                  (drop (size self - length v) (sv self)) v) as Hcmp.
    destruct (view_compare lt _ v).
    + split; [intros _|done].
      exists (take (size self - length v) (sv self)).
      rewrite <- (proj1 Hcmp eq_refl) at 2. by rewrite take_drop.
    + split; [done|]. intros [k Hk]. exfalso.
      assert (drop (size self - length v) (sv self) = v) as Hv.
      { rewrite Hk. apply drop_app_length'.
        rewrite Hk, length_app in Hlen. lia. }
      by apply Hcmp in Hv.
    + split; [done|]. intros [k Hk]. exfalso.
      assert (drop (size self - length v) (sv self) = v) as Hv.
      { rewrite Hk. apply drop_app_length'.
        rewrite Hk, length_app in Hlen. lia. }
      by apply Hcmp in Hv.
  - split; [done|]. intros [k Hk].
    rewrite Hk, length_app in Hlen. lia.
Qed.

Lemma contains_infix self v :
  well_formed self → (N.of_nat N < npos)%N →
  contains self v = true ↔ ∃ l1 l2, sv self = l1 ++ v ++ l2.
Proof.
  intros Hwf Hmax. pose proof (size_le self) as Hle.
  pose proof (length_sv self Hwf) as Hlen.
  unfold contains, find_view.
  rewrite negb_true_iff, N.eqb_neq.
  apply find_infix. lia.
Qed.

Lemma contains_char_elem self (c : T) :
  well_formed self → (N.of_nat N < npos)%N →
  contains_char self c = true ↔ c ∈ sv self.
Proof.
  intros Hwf Hmax. pose proof (size_le self) as Hle.
  pose proof (length_sv self Hwf) as Hlen.
  unfold contains_char, find_char.
  rewrite negb_true_iff, N.eqb_neq, find_infix by lia. split.
  - intros (l1 & l2 & ->).
    rewrite elem_of_app, elem_of_app, list_elem_of_singleton. auto.
  - intros Hc. apply list_elem_of_split in Hc as (l1 & l2 & ->).
    by exists l1, l2.
Qed.

End Tests.

(** X19: [starts_with(view)] holds exactly when the view is a prefix of
    the content, and [ends_with(view)] exactly when it is a suffix; in
    particular both hold of the empty view and of the content itself. *)
Theorem X19_starts_with_and_ends_with
    {T : Type} `{Element T} `{EqDecision T} {N : nat}
    (lt : T → T → bool) (s : literal_t T N) :
  strict_total lt → well_formed s → (N.of_nat N ≤ npos)%N →
  (∀ v, starts_with s v = true ↔ v `prefix_of` sv s) ∧
  (∀ v, ends_with lt s v = true ↔ v `suffix_of` sv s) ∧
  starts_with s [] = true ∧ ends_with lt s [] = true ∧
  starts_with s (sv s) = true ∧ ends_with lt s (sv s) = true.
Proof.
  intros Hlt Hwf Hmax.
  assert (∀ v, ends_with lt s v = true ↔ v `suffix_of` sv s) as Hends.
  { intros v. by apply ends_with_suffix. }
  split_and!.
  - intros v. apply starts_with_prefix.
  - done.
  - apply starts_with_prefix, prefix_nil.
  - apply Hends, suffix_nil.
  - by apply starts_with_prefix.
  - by apply Hends.
Qed.

(** An instance of X19 on ["Test String"]. *)
Lemma X19_starts_with_and_ends_with_witness :
  starts_with fixedString (chars "Test") = true ∧
  ends_with char_lt fixedString (chars "String") = true ∧
  starts_with fixedString (chars "String") = false.
Proof.
  destruct (X19_starts_with_and_ends_with char_lt fixedString)
    as (Hstarts & Hends & _);
    [exact char_lt_strict_total|reflexivity|vm_compute; discriminate|].
  split_and!; [| |reflexivity].
  - apply Hstarts. by exists (chars " String").
  - apply Hends. by exists (chars "Test ").
Defined.

(** X20: [contains(view)] holds exactly when the view occurs in the
    content as a contiguous run, and [contains(c)] exactly when [c] is an
    element of the content; the zero element is never contained. *)
Theorem X20_contains
    {T : Type} `{Element T} `{EqDecision T} (Hchar : character_type T)
    {N : nat} (s : literal_t T N) :
  well_formed s → (N.of_nat N < npos)%N →
  (∀ v, contains s v = true ↔ ∃ l1 l2, sv s = l1 ++ v ++ l2) ∧
  (∀ c, contains_char s c = true ↔ c ∈ sv s) ∧
  contains s [] = true ∧ contains_char s zero = false.
Proof.
  intros Hwf Hmax.
  assert (∀ c, contains_char s c = true ↔ c ∈ sv s) as Hchar_in.
  { intros c. by apply contains_char_elem. }
  split_and!.
  - intros v. by apply contains_infix.
  - done.
  - apply contains_infix; [done..|]. by exists [], (sv s).
  - apply not_true_is_false. rewrite Hchar_in. intros Hin.
    pose proof (sv_populated s) as Htrue.
    rewrite Forall_forall in Htrue. apply Htrue in Hin.
    by rewrite (to_bool_zero Hchar) in Hin.
Qed.

(** An instance of X20 on ["Test String"]. *)
Lemma X20_contains_witness :
  contains fixedString (chars "t S") = true ∧
  contains_char fixedString "S"%char = true ∧
  contains fixedString (chars "ts") = false.
Proof.
  destruct (X20_contains char_character_type fixedString)
    as (Hview & Hc & _); [reflexivity|vm_compute; reflexivity|].
  split_and!; [| |reflexivity].
  - apply Hview. by exists (chars "Tes"), (chars "tring").
  - apply Hc. apply list_elem_of_In. vm_compute. auto 10.
Defined.

(** ** Ordering *)



(** ** Equality with a raw array *)

Section ArrayEquality.
Context {T : Type} `{Element T} `{EqDecision T}.
Hypothesis Hchar : character_type T.

Lemma traits_length_terminated (content rest : list T) :
  Forall (λ c, to_bool c = true) content →
  char_traits.length (content ++ zero :: rest) = Some (length content).
Proof.
  induction 1 as [|c content Hc _ IH]; simpl.
  - by rewrite decide_True.
  - rewrite decide_False, IH; [done|].
    intros ->. by rewrite (to_bool_zero Hchar) in Hc.
Qed.

Lemma traits_length_unterminated (array : list T) :
  Forall (λ c, to_bool c = true) array → char_traits.length array = None.
Proof.
  induction 1 as [|c array Hc _ IH]; simpl; [done|].
  rewrite decide_False, IH; [done|].
  intros ->. by rewrite (to_bool_zero Hchar) in Hc.
Qed.

Lemma view_of_terminated (content rest : list T) :
  Forall (λ c, to_bool c = true) content →
  view_of_pointer (content ++ zero :: rest) = Return content.
Proof.
  intros Htrue. unfold view_of_pointer.
  by rewrite traits_length_terminated, take_app_length.
Qed.

End ArrayEquality.

(** X22: [s == array] for a string [s] and a zero-terminated array
    compares the content of [s] with the text of the array before its
    first zero, and gives the answer of [==] against the literal built
    from the array.  An undefined literal equals the array exactly when
    that text is empty.  For an array without a zero the view is read
    past the end of the array. *)
Theorem X22_equality_with_array
    {T : Type} `{Element T} `{EqDecision T} (Hchar : character_type T)
    {N : nat} (safe : bool) (eq : T → T → bool) (s : literal_t T N)
    (content rest : list T) :
  0 < N → well_formed s → (∀ x y, eq x y = true ↔ x = y) →
  Forall (λ c, to_bool c = true) content →
  let array := content ++ zero :: rest in
  let built : literal_t T (Resized (length array)) :=
    from_array (Resized (length array)) array in
  eq_array s array = Return (bool_decide (content = sv s)) ∧
  operator_eq safe (Some eq) s built = eq_array s array ∧
  eq_array_undefined array = Return (bool_decide (content = [])) ∧
  (∀ unsupported_eq,
     operator_eq safe unsupported_eq emptyUndefined built =
     eq_array_undefined array) ∧
  (∀ unterminated : list T,
     Forall (λ c, to_bool c = true) unterminated →
     eq_array s unterminated = Stuck).
Proof.
  intros HN Hwf Heq Htrue array built.
  pose proof (bit_ceil_ge (length array)) as HR.
  assert (0 < Resized (length array)) as Hpos.
  { unfold Resized. destruct (bit_ceil_pow2 (length array)) as [k ->].
    pose proof (Nat.pow_nonzero 2 k). lia. }
  destruct (from_array_terminated Hchar Hpos content rest) as [Hsize Hsv];
    [done|fold array; unfold Resized; lia|].
  fold array in Hsize, Hsv. fold built in Hsize, Hsv.
  assert (well_formed built) as Hwb.
  { apply from_array_valid; unfold Resized; lia. }
  assert (eq_array s array = Return (bool_decide (content = sv s))) as Harr.
  { unfold eq_array, array. by rewrite (view_of_terminated Hchar). }
  assert (eq_array_undefined array = Return (bool_decide (content = [])))
    as Hund.
  { unfold eq_array_undefined, array. destruct Htrue as [|c l Hc _]; simpl.
    - by rewrite !bool_decide_eq_true_2.
    - rewrite !bool_decide_eq_false_2; [done..|].
      intros ->. by rewrite (to_bool_zero Hchar) in Hc. }
  split_and!.
  - done.
  - rewrite Harr, string_equality;
      [|by apply LiteralString_true..|done|done|done].
    rewrite Hsv. f_equal. by apply bool_decide_ext.
  - done.
  - intros ueq. rewrite Hund. unfold operator_eq.
    rewrite (LiteralString_true _ Hchar Hpos). simpl. f_equal.
    destruct Hchar as (_ & HU & _).
    pose proof (empty_size built Hpos HU Hwb) as Hempty.
    rewrite Hsize in Hempty.
    destruct (empty built).
    + symmetry. apply bool_decide_eq_true_2, nil_length_inv.
      by apply Hempty.
    + symmetry. apply bool_decide_eq_false_2. intros ->.
      destruct Hempty as [_ Hz]. by specialize (Hz eq_refl).
  - intros unterminated Hall. unfold eq_array, view_of_pointer.
    by rewrite (traits_length_unterminated Hchar).
Qed.

(** An instance of X22: ["Test String"] against the 12 byte array of the
    same text and against ["Test"]. *)
Lemma X22_equality_with_array_witness :
  eq_array fixedString (chars "Test String" ++ [zero]) = Return true ∧
  eq_array fixedString (chars "Test" ++ [zero]) = Return false ∧
  eq_array fixedString (chars "Test String") = Stuck.
Proof.
  destruct (X22_equality_with_array char_character_type true char_eq
              fixedString (chars "Test String") [])
    as (Hsame & _ & _ & _ & Hstuck);
    [vm_compute; lia|reflexivity|exact char_eq_spec|repeat constructor|].
  split_and!; [rewrite Hsame; reflexivity|reflexivity|].
  apply Hstuck. repeat constructor.
Defined.

(** ** Symmetry of equality *)

Section Symmetry.
Context {T U : Type} `{Element T} `{Element U} {N M : nat}.
Variable safe : bool.
Implicit Types (a : literal_t T N) (b : literal_t U M).

Lemma subscript_zero {V : Type} `{Element V} {K : nat}
    (self : literal_t V K) :
  well_formed self →
  (∃ c, subscript safe self 0 = Return c) ∨
  subscript safe self 0 =
    Throw (range_error "subscript index outside literal_t limits").
Proof.
  intros Hwf. unfold subscript.
  destruct (0 <? K); [|eauto].
  destruct (safe && (size self <=? 0)); [by right|left].
  destruct (lookup_lt_is_Some_2 (_data self) 0) as [c Hc].
  { unfold well_formed in Hwf. lia. }
  rewrite Hc. eauto.
Qed.

Lemma first_elements_swap (e : T → U → bool) a b :
  well_formed a → well_formed b →
  (x ← subscript safe b 0; y ← subscript safe a 0; Return (e y x)) =
  (x ← subscript safe a 0; y ← subscript safe b 0; Return (e x y)).
Proof.
  intros Ha Hb.
  destruct (subscript_zero a Ha) as [[x ->]| ->],
           (subscript_zero b Hb) as [[y ->]| ->]; done.
Qed.

Lemma equal_loop_swap (ne : T → U → bool) a b : ∀ count i,
  i + count ≤ size a → i + count ≤ size b →
  equal_loop safe (λ y x, ne x y) b a count i =
  equal_loop safe ne a b count i.
Proof.
  induction count as [|k IH]; intros i Ha Hb; cbn [equal_loop]; [done|].
  destruct (subscript_populated safe a i) as (x & _ & _ & ->); [lia|].
  destruct (subscript_populated safe b i) as (y & _ & _ & ->); [lia|].
  simpl. destruct (ne x y); [done|]. apply IH; lia.
Qed.

End Symmetry.

(** X5: [==] on literals is symmetric.  For operands of any categories
    and capacities, [b == a] computed with the element comparison read
    the other way round has the outcome of [a == b]: the same answer, or
    the same exception. *)
Theorem X5_equality_is_symmetric
    {T U : Type} `{Element T} `{Element U} {N M : nat} (safe : bool)
    (eq : option (T → U → bool)) (a : literal_t T N) (b : literal_t U M) :
  well_formed a → well_formed b →
  operator_eq safe ((λ e y x, e x y) <$> eq) b a = operator_eq safe eq a b.
Proof.
  intros Ha Hb. unfold operator_eq, equality_comparable_with.
  rewrite (andb_comm (LiteralString U M)), (orb_comm (@Undefined U _)).
  rewrite (Nat.eqb_sym (size b)), (andb_comm (empty b)).
  rewrite (andb_comm (LiteralUndefined U M)).
  destruct (LiteralString T N) eqn:HsT, (LiteralString U M) eqn:HsU; simpl.
  - (* both are strings *)
    destruct (size a =? size b) eqn:Hsize; simpl; [|done].
    apply Nat.eqb_eq in Hsize.
    destruct eq as [e|]; simpl; [|done].
    rewrite <- Hsize.
    apply (equal_loop_swap safe (λ x y, negb (e x y))); lia.
  - (* the left operand is the string *)
    destruct (LiteralUndefined U M); [done|].
    destruct (@Undefined T _ || @Undefined U _); [done|].
    destruct eq as [e|]; simpl; [|done].
    destruct (empty a && empty b); [done|].
    destruct (size a =? 1); [|done].
    by apply first_elements_swap.
  - (* the right operand is the string *)
    destruct (LiteralUndefined T N); [done|].
    destruct (@Undefined T _ || @Undefined U _); [done|].
    destruct eq as [e|]; simpl; [|done].
    destruct (empty a && empty b); [done|].
    destruct (size b =? 1); [|done].
    by apply first_elements_swap.
  - (* neither is *)
    destruct (@Undefined T _ || @Undefined U _); [done|].
    destruct eq as [e|]; simpl; [|done].
    by apply first_elements_swap.
Qed.

(** An instance of X5: the string ["a"] and the value ['a'], in both
    orders. *)
Lemma X5_equality_is_symmetric_witness :
  let a : literal_t char 2 := from_array 2 (chars "a" ++ [zero]) in
  let v : literal_t char 0 := from_value 0 "a"%char in
  operator_eq true (Some char_eq) a v = Return true ∧
  operator_eq true (Some (λ y x, char_eq x y)) v a = Return true.
Proof.
  intros a v. split; [reflexivity|].
  rewrite (X5_equality_is_symmetric true (Some char_eq) a v);
    reflexivity.
Defined.

(** ** Categories *)

(** X23: the three categories exclude one another, for an element type
    that is not both a character type and [Unsupported], but they do not
    cover every literal: one of capacity N > 0 over an element type that
    is neither is in none of them.  [==] treats such a literal like a
    value and reads its element 0 through [operator []], which throws in
    safe mode when the literal is empty. *)
Theorem X23_categories {T : Type} `{Element T} (N : nat) :
  (@LiteralChar T _ = true → @Undefined T _ = false) →
  (LiteralString T N = true →
   LiteralValue T N = false ∧ LiteralUndefined T N = false) ∧
  (LiteralValue T N = true →
   LiteralString T N = false ∧ LiteralUndefined T N = false) ∧
  (LiteralUndefined T N = true →
   LiteralString T N = false ∧ LiteralValue T N = false) ∧
  (0 < N → @LiteralChar T _ = false → @Undefined T _ = false →
   LiteralString T N = false ∧ LiteralValue T N = false ∧
   LiteralUndefined T N = false ∧
   ∀ (eq : T → T → bool) (a b : literal_t T N),
     size a = 0 →
     operator_eq true (Some eq) a b =
       Throw (range_error "subscript index outside literal_t limits")).
Proof.
  intros Hexcl. unfold LiteralString, LiteralValue, LiteralUndefined.
  destruct (@LiteralChar T _) eqn:HC, (@Undefined T _) eqn:HU;
    try (specialize (Hexcl eq_refl); discriminate);
    destruct (Nat.ltb_spec 0 N) as [HN|HN], (Nat.eqb_spec N 0) as [HZ|HZ];
    try lia; simpl; split_and!; try done; try (intros; lia).
  intros _ _ _. split_and!; [done..|].
  intros eq a b Hempty.
  unfold operator_eq, equality_comparable_with, LiteralString.
  rewrite HC, HU, !andb_false_r. simpl.
  by rewrite (subscript_safe_throws a 0) by lia.
Qed.

(** An instance of X23: [literal_t<int, 4>]. *)
Lemma X23_categories_witness :
  LiteralString Z 4 = false ∧ LiteralValue Z 4 = false ∧
  LiteralUndefined Z 4 = false ∧
  operator_eq true (Some Z.eqb) (literal_default (T:=Z) 4)
    (literal_default 4) =
    Throw (range_error "subscript index outside literal_t limits").
Proof.
  destruct (@X23_categories Z _ 4) as (_ & _ & _ & Hnone);
    [discriminate|].
  destruct Hnone as (Hs & Hv & Hu & Hthrow); [lia|reflexivity..|].
  split_and!; [exact Hs|exact Hv|exact Hu|].
  apply Hthrow. reflexivity.
Defined.
